(** * The path manager of rtsp-simple-server, and its metrics exporter

    A shallow embedding of [internal/pathman/pathman.go] and of the
    serving loop of [internal/metrics/metrics.go].

    The manager is a single actor: its [run] loop takes one event at a
    time and handles it to completion.  Each [case] of the [select] is a
    function from the manager's state to a new state and the list of
    effects the case performs (replies on a request's channel, calls into
    a Path, Paths created and closed).  What the manager calls but does not
    define is a parameter of the development: addresses, networks, regular
    expressions and the order of a [range] over a map in the class
    [GoLib], the functions of package [conf] in the class [ConfPkg].  The
    HTTP client is modelled as far as its handling of redirects goes, and
    a Path and a request as the records of what the manager gives to them
    and reads from them. *)

From Stdlib Require Import ZArith Ascii String.
From stdpp Require Import base option list strings gmap fin_maps pretty.

Open Scope string_scope.
Open Scope list_scope.
Open Scope Z_scope.

(** ** Go's library, as far as the manager uses it *)

(** [net.IP] is a byte slice, so [nil] is one of its values; [IP_isNil]
    is the test [ip == nil].  A [range] over a map visits every key once,
    in an order the language leaves open: [range_keys] is that order, any
    permutation of the keys. *)
Class GoLib := {
  net_IP : Type;
  net_IPNet : Type;
  regexp_Regexp : Type;
  IP_isNil : net_IP → bool;
  IP_Equal : net_IP → net_IP → bool;
  IPNet_Contains : net_IPNet → net_IP → bool;
  IP_String : net_IP → string;
  Regexp_MatchString : regexp_Regexp → string → bool;
  range_keys : list string → list string;
  range_keys_perm : ∀ l, range_keys l ≡ₚ l
}.

(** Go's [error] values the manager builds, compares or passes on. *)
Inductive error :=
| Errorf (msg : string)
| ErrAuthCritical (Message : string) (StatusCode : Z)
| ErrServerClosed
| ErrUseLastResponse
| ErrExternal (msg : string).

#[global] Instance error_eq_dec : EqDecision error.
Proof. solve_decision. Defined.

Inductive result (A : Type) :=
| Ok (a : A)
| Err (e : error).
Arguments Ok {A} a.
Arguments Err {A} e.

(** [base.StatusUnauthorized] of gortsplib. *)
Definition StatusUnauthorized : Z := 401.

(** [headers.AuthMethod] of gortsplib. *)
Inductive AuthMethod := AuthBasic | AuthDigest.

(** ** [conf.PathConf] *)

(** An element of [ReadIPsParsed] and [PublishIPsParsed], which are
    [[]interface{}]: a [net.IP], a [*net.IPNet], or a value of another
    dynamic type, which the type switch of [ipEqualOrInRange] skips. *)
Inductive IPItem `{GoLib} :=
| ItemIP (titem : net_IP)
| ItemIPNet (titem : net_IPNet)
| ItemOther.

(** The fields the manager reads, and the remaining options of a path.
    A slice field is [None] when it is [nil]. *)
Record PathConf `{GoLib} := {
  Regexp : option regexp_Regexp;
  Source : string;
  SourceOnDemand : bool;
  PublishUser : string;
  PublishPass : string;
  PublishIPsParsed : option (list IPItem);
  ReadUser : string;
  ReadPass : string;
  ReadIPsParsed : option (list IPItem);
  HTTPCallback : string;
  RunOnInit : string;
  RunOnDemand : string;
  RunOnPublish : string;
  RunOnRead : string
}.

(** [pathConf.Source = target] on a [PathConf] value. *)
Definition set_Source `{GoLib} (c : PathConf) (target : string) : PathConf :=
  {| Regexp := Regexp c;
     Source := target;
     SourceOnDemand := SourceOnDemand c;
     PublishUser := PublishUser c;
     PublishPass := PublishPass c;
     PublishIPsParsed := PublishIPsParsed c;
     ReadUser := ReadUser c;
     ReadPass := ReadPass c;
     ReadIPsParsed := ReadIPsParsed c;
     HTTPCallback := HTTPCallback c;
     RunOnInit := RunOnInit c;
     RunOnDemand := RunOnDemand c;
     RunOnPublish := RunOnPublish c;
     RunOnRead := RunOnRead c |}.

(** The functions of package [conf] the manager calls.
    [CheckPathName name] is [None] for a valid name and the text of the
    error otherwise.  [PathConf_Equal] is the method [Equal] of a [PathConf].
    [instantiate c name] stands for the method [GetInstance]: [None] when
    the receiver itself is returned, [Some c'] when a new object with
    contents [c'] is. *)
Class ConfPkg `{GoLib} := {
  CheckPathName : string → option string;
  PathConf_Equal : PathConf → PathConf → bool;
  instantiate : PathConf → string → option PathConf
}.

(** ** [ipEqualOrInRange] *)

Fixpoint ipEqualOrInRange `{GoLib} (ip : net_IP) (ips : list IPItem) : bool :=
  match ips with
  | [] => false
  | item :: rest =>
      match item with
      | ItemIP titem =>
          if IP_Equal titem ip then true else ipEqualOrInRange ip rest
      | ItemIPNet titem =>
          if IPNet_Contains titem ip then true else ipEqualOrInRange ip rest
      | ItemOther => ipEqualOrInRange ip rest
      end
  end.

(** ** [PathManager.authenticate] *)

(** The type of a request's [ValidateCredentials]. *)
Definition CredentialValidator : Type :=
  list AuthMethod → string → string → option error.

Definition authenticate `{GoLib}
    (authMethods : list AuthMethod)
    (ip : net_IP)
    (validateCredentials : option CredentialValidator)
    (pathName : string)
    (pathIPs : option (list IPItem))
    (pathUser pathPass : string) : option error :=
  (* validate ip *)
  let ipErr :=
    match pathIPs with
    | Some ips =>
        if negb (IP_isNil ip) then
          if negb (ipEqualOrInRange ip ips) then
            Some (ErrAuthCritical ("IP '" +:+ IP_String ip +:+ "' not allowed")
                                  StatusUnauthorized)
          else None
        else None
    | None => None
    end in
  match ipErr with
  | Some e => Some e
  | None =>
      (* validate user *)
      match validateCredentials with
      | Some validate =>
          if bool_decide (pathUser ≠ "") then
            validate authMethods pathUser pathPass
          else None
      | None => None
      end
  end.

(** ** The HTTP client of [net/http], as [DoAuthRequest] uses it *)

Record PlayRequestPayload := {
  RemoteAddr : string;
  LocalAddr : string;
  Path : string
}.

Record PlayRequestAction := {
  Close : bool;
  Target : string
}.

Record HTTPRequest := {
  Method : string;
  URL : string;
  ContentType : string;
  Body : option PlayRequestPayload
}.

(** A response: its status code and its headers under their canonical
    names. *)
Record Response := {
  StatusCode : Z;
  Header : list (string * string)
}.

(** [Header.Get]: the first value of the key, the empty string when the
    key is absent. *)
Fixpoint Header_Get (h : list (string * string)) (key : string) : string :=
  match h with
  | [] => ""
  | (k, v) :: rest => if bool_decide (k = key) then v else Header_Get rest key
  end.

(** What the servers of the network answer to a request: a response, or
    the error of a failed exchange. *)
Definition Network : Type := HTTPRequest → result Response.

(** [http.Client]: [CheckRedirect] is [None] for the default policy;
    otherwise it is asked before each redirect is followed, with the
    request about to be made and the requests made so far, and returns
    [None] to follow. *)
Record Client := {
  CheckRedirect : option (HTTPRequest → list HTTPRequest → option error)
}.

(** The default policy stops after ten requests. *)
Definition defaultCheckRedirect (req : HTTPRequest) (via : list HTTPRequest)
  : option error :=
  if (10 <=? length via)%nat then Some (ErrExternal "stopped after 10 redirects")
  else None.

Definition checkRedirect (c : Client) (req : HTTPRequest) (via : list HTTPRequest)
  : option error :=
  match CheckRedirect c with
  | Some policy => policy req via
  | None => defaultCheckRedirect req via
  end.

(** Which responses the client treats as a redirect, and with which
    method and body the next request is made: 301, 302 and 303 turn a POST
    into a GET without body, 307 and 308 repeat the request. *)
Definition redirectBehavior (reqMethod : string) (resp : Response)
  : option (string * bool) :=
  let sc := StatusCode resp in
  if bool_decide (sc = 301 ∨ sc = 302 ∨ sc = 303) then
    Some (if bool_decide (reqMethod = "GET" ∨ reqMethod = "HEAD")
          then reqMethod else "GET", false)
  else if bool_decide (sc = 307 ∨ sc = 308) then Some (reqMethod, true)
  else None.

(** [Client.do]: send the request; on a redirect with a [Location], ask
    the policy; [ErrUseLastResponse] hands the redirect itself to the
    caller, another error fails, and otherwise the client requests the new
    location.  The second component lists the requests sent.  [fuel]
    bounds the chain a policy that never stops would follow. *)
Fixpoint Client_do (fuel : nat) (c : Client) (net : Network)
    (req : HTTPRequest) (via : list HTTPRequest)
  : result Response * list HTTPRequest :=
  let via' := via ++ [req] in
  match net req with
  | Err e => (Err e, via')
  | Ok resp =>
      match redirectBehavior (Method req) resp with
      | None => (Ok resp, via')
      | Some (redirectMethod, includeBody) =>
          let loc := Header_Get (Header resp) "Location" in
          if bool_decide (loc = "") then (Ok resp, via')
          else
            let next := {| Method := redirectMethod;
                           URL := loc;
                           ContentType := if includeBody then ContentType req else "";
                           Body := if includeBody then Body req else None |} in
            match checkRedirect c next via' with
            | Some ErrUseLastResponse => (Ok resp, via')
            | Some e => (Err e, via')
            | None =>
                match fuel with
                | O => (Err (ErrExternal "redirect chain too long"), via')
                | S fuel' => Client_do fuel' c net next via'
                end
            end
      end
  end.

(** [Client.Post]. *)
Definition Client_Post (c : Client) (net : Network)
    (url contentType : string) (body : PlayRequestPayload)
  : result Response * list HTTPRequest :=
  Client_do 64 c net
    {| Method := "POST"; URL := url; ContentType := contentType;
       Body := Some body |} [].

(** ** [PathManager.DoAuthRequest] *)

(** The result of the call and the HTTP requests it made.  [json.Marshal]
    of the payload, three strings, has no error case reachable here; the
    body of the request is the payload itself. *)
Definition DoAuthRequest `{GoLib} (net : Network) (pathConf : PathConf)
    (p : PlayRequestPayload) : result PlayRequestAction * list HTTPRequest :=
  let a := {| Close := false; Target := "" |} in
  if bool_decide (HTTPCallback pathConf = "") then (Ok a, [])
  else
    let c := {| CheckRedirect := Some (λ _ _, Some ErrUseLastResponse) |} in
    match Client_Post c net (HTTPCallback pathConf) "application/json" p with
    | (Err err, sent) => (Err err, sent)
    | (Ok resp, sent) =>
        if (200 <=? StatusCode resp) && (StatusCode resp <=? 299) then
          (Ok a, sent)
        else if (300 <=? StatusCode resp) && (StatusCode resp <=? 399) then
          let a := {| Close := Close a;
                      Target := Header_Get (Header resp) "Location" |} in
          if bool_decide (Target a = "") then
            (Err (Errorf "invalid location header in redirect response. closing connection"),
             sent)
          else (Ok a, sent)
        else if (400 <=? StatusCode resp) && (StatusCode resp <=? 499) then
          (Ok {| Close := true; Target := Target a |}, sent)
        else
          (Err (Errorf "invalid redirect response. closing connection"), sent)
    end.

(** ** Objects on the heap *)

(** A [*conf.PathConf] is an address in the heap of [PathConf] objects.
    The heap only grows: [alloc] places a new object after the last. *)
Definition ptr : Type := nat.

Definition alloc `{GoLib} (h : list PathConf) (c : PathConf) : list PathConf * ptr :=
  (h ++ [c], length h).

(** [pathConf.Source = target] through the pointer: [None] when it
    points to no object. *)
Definition store_Source `{GoLib} (h : list PathConf) (pathConf : ptr)
    (target : string) : option (list PathConf) :=
  c ← h !! pathConf;
  Some (<[pathConf := set_Source c target]> h).

(** [pconf.GetInstance(name)]: the receiver, or a new object. *)
Definition GetInstance `{ConfPkg} (h : list PathConf) (pconf : ptr)
    (name : string) : option (list PathConf * ptr) :=
  c ← h !! pconf;
  match instantiate c name with
  | None => Some (h, pconf)
  | Some c' => Some (alloc h c')
  end.

(** ** Package [path], as the manager sees it *)

(** [path.New] returns a new [*path.Path] that remembers the
    configuration name, the configuration and the name it was made with,
    which [ConfName()] and [Conf()] give back.  [id] tells the objects
    apart: comparing two [*path.Path] compares their [id]. *)
Module path.
Record Path := {
  id : nat;
  ConfName : string;
  Conf : ptr;
  Name : string
}.
End path.

(** ** Package [readpublisher], as the manager sees it *)

(** [DescribeReq], [SetupPlayReq] and [AnnounceReq] have the same fields
    as far as the manager reads them.  [Res] names the channel the reply
    goes to. *)
Module readpublisher.
Record Req `{GoLib} := {
  PathName : string;
  RemoteAddr : string;
  LocalAddr : string;
  IP : net_IP;
  ValidateCredentials : option CredentialValidator;
  Res : nat
}.
End readpublisher.

(** ** The manager *)

(** The state one event of [run] starts from and leaves: the [PathConf]
    objects of the heap, the fields [authMethods], [pathConfs] and [paths]
    of the [PathManager], and the number of Paths [path.New] has made.
    The remaining fields are only handed on to [path.New]. *)
Record State `{GoLib} := {
  heap : list PathConf;
  authMethods : list AuthMethod;
  pathConfs : gmap string ptr;
  paths : gmap string path.Path;
  pathsMade : nat
}.

Definition set_heap `{GoLib} (st : State) (h : list PathConf) : State :=
  {| heap := h; authMethods := authMethods st; pathConfs := pathConfs st;
     paths := paths st; pathsMade := pathsMade st |}.

Definition set_pathConfs `{GoLib} (st : State) (confs : gmap string ptr) : State :=
  {| heap := heap st; authMethods := authMethods st; pathConfs := confs;
     paths := paths st; pathsMade := pathsMade st |}.

Definition set_paths `{GoLib} (st : State) (ps : gmap string path.Path) : State :=
  {| heap := heap st; authMethods := authMethods st; pathConfs := pathConfs st;
     paths := ps; pathsMade := pathsMade st |}.

(** What a case of [run] does to the world around the manager.  The Path
    of an [OnPathMan...] call is what the index expression
    [pm.paths[pathConf.Source]] evaluates to: [None] is the nil pointer a
    missing key gives. *)
Inductive Effect `{GoLib} :=
| HTTPDo (r : HTTPRequest)
| Reply (res : nat) (err : error)
| PathNew (pa : path.Path)
| PathClose (pa : path.Path)
| OnPathManDescribe (pa : option path.Path) (req : readpublisher.Req)
| OnPathManSetupPlay (pa : option path.Path) (req : readpublisher.Req)
| OnPathManAnnounce (pa : option path.Path) (req : readpublisher.Req).

(** The keys of a map in the order a [range] visits them. *)
Definition keys_of `{GoLib} {V : Type} (m : gmap string V) : list string :=
  range_keys (map_to_list m).*1.

(** *** [createPath] and [createPaths] *)

(** [createPath] returns the Path [path.New] makes; it does not touch
    [pm.paths]. *)
Definition createPath `{GoLib} (st : State) (confName : string) (conf : ptr)
    (name : string) : State * path.Path :=
  ({| heap := heap st; authMethods := authMethods st;
      pathConfs := pathConfs st; paths := paths st;
      pathsMade := S (pathsMade st) |},
   {| path.id := pathsMade st; path.ConfName := confName;
      path.Conf := conf; path.Name := name |}).

(** The loop of [createPaths] over the keys still to visit: the Path
    [createPath] returns is dropped. *)
Fixpoint createPaths_loop `{GoLib} (keys : list string) (st : State)
  : option (State * list Effect) :=
  match keys with
  | [] => Some (st, [])
  | pathName :: rest =>
      match pathConfs st !! pathName with
      | None => createPaths_loop rest st
      | Some pathConf =>
          c ← heap st !! pathConf;
          if bool_decide (paths st !! Source c = None)
             && bool_decide (Regexp c = None) then
            let '(st1, pa) := createPath st pathName pathConf pathName in
            '(st2, out) ← createPaths_loop rest st1;
            Some (st2, PathNew pa :: out)
          else createPaths_loop rest st
      end
  end.

Definition createPaths `{GoLib} (st : State) : option (State * list Effect) :=
  createPaths_loop (keys_of (pathConfs st)) st.

(** *** [New] *)

Definition New `{GoLib} (authMethods : list AuthMethod) (h : list PathConf)
    (pathConfs : gmap string ptr) : option (State * list Effect) :=
  createPaths {| heap := h; authMethods := authMethods;
                 pathConfs := pathConfs; paths := ∅; pathsMade := 0 |}.

(** *** [findPathConf] *)

(** The loop over the regular expression paths. *)
Fixpoint findPathConf_loop `{GoLib} (h : list PathConf)
    (confs : gmap string ptr) (name : string) (keys : list string)
  : option (option (string * ptr)) :=
  match keys with
  | [] => Some None
  | pathName :: rest =>
      match confs !! pathName with
      | None => findPathConf_loop h confs name rest
      | Some pathConf =>
          c ← h !! pathConf;
          match Regexp c with
          | Some re =>
              if Regexp_MatchString re name then Some (Some (pathName, pathConf))
              else findPathConf_loop h confs name rest
          | None => findPathConf_loop h confs name rest
          end
      end
  end.

Definition findPathConf `{ConfPkg} (st : State) (name : string)
  : option (State * result (string * ptr)) :=
  match CheckPathName name with
  | Some err =>
      Some (st, Err (Errorf ("invalid path name: " +:+ err +:+ " (" +:+ name +:+ ")")))
  | None =>
      (* normal path *)
      match pathConfs st !! name with
      | Some pathConf =>
          '(h, inst) ← GetInstance (heap st) pathConf name;
          Some (set_heap st h, Ok (name, inst))
      | None =>
          (* regular expression path *)
          found ← findPathConf_loop (heap st) (pathConfs st) name
                    (keys_of (pathConfs st));
          match found with
          | Some (pathName, pathConf) =>
              '(h, inst) ← GetInstance (heap st) pathConf name;
              Some (set_heap st h, Ok (pathName, inst))
          | None =>
              Some (st, Err (Errorf ("unable to find a valid configuration for path '"
                                       +:+ name +:+ "'")))
          end
      end
  end.

(** *** The cases of [run] *)

(** [case pathConfs := <-pm.confReload], loop by loop. *)

(** remove confs *)
Definition removeConfs (newConfs : gmap string ptr) (keys : list string)
    (confs : gmap string ptr) : gmap string ptr :=
  foldl (λ confs pathName,
           match newConfs !! pathName with
           | None => delete pathName confs
           | Some _ => confs
           end) confs keys.

(** update confs: [Equal] reads both objects. *)
Fixpoint updateConfs `{ConfPkg} (h : list PathConf) (newConfs : gmap string ptr)
    (keys : list string) (confs : gmap string ptr) : option (gmap string ptr) :=
  match keys with
  | [] => Some confs
  | pathName :: rest =>
      match confs !! pathName with
      | None => updateConfs h newConfs rest confs
      | Some oldConf =>
          old ← h !! oldConf;
          newConf ← newConfs !! pathName;
          new ← h !! newConf;
          if negb (PathConf_Equal old new) then
            updateConfs h newConfs rest (<[pathName := newConf]> confs)
          else updateConfs h newConfs rest confs
      end
  end.

(** add confs *)
Definition addConfs (newConfs : gmap string ptr) (keys : list string)
    (confs : gmap string ptr) : gmap string ptr :=
  foldl (λ confs pathName,
           match newConfs !! pathName with
           | Some pathConf =>
               match confs !! pathName with
               | None => <[pathName := pathConf]> confs
               | Some _ => confs
               end
           | None => confs
           end) confs keys.

(** remove paths associated with a conf which doesn't exist anymore or
    has changed *)
Fixpoint removePaths `{GoLib} (confs : gmap string ptr) (keys : list string)
    (ps : gmap string path.Path) : gmap string path.Path * list Effect :=
  match keys with
  | [] => (ps, [])
  | source :: rest =>
      match ps !! source with
      | None => removePaths confs rest ps
      | Some pa =>
          let stale :=
            match confs !! path.ConfName pa with
            | None => true
            | Some pathConf => negb (bool_decide (pathConf = path.Conf pa))
            end in
          if stale then
            let '(ps', out) := removePaths confs rest (delete source ps) in
            (ps', PathClose pa :: out)
          else removePaths confs rest ps
      end
  end.

Definition onConfReload `{ConfPkg} (newConfs : gmap string ptr) (st : State)
  : option (State * list Effect) :=
  let confs1 := removeConfs newConfs (keys_of (pathConfs st)) (pathConfs st) in
  confs2 ← updateConfs (heap st) newConfs (keys_of confs1) confs1;
  let confs3 := addConfs newConfs (keys_of newConfs) confs2 in
  let '(ps, closed) := removePaths confs3 (keys_of (paths st)) (paths st) in
  '(st', made) ← createPaths (set_paths (set_pathConfs st confs3) ps);
  Some (st', closed ++ made).

(** [case pa := <-pm.pathClose] *)
Definition onPathClose `{GoLib} (pa : path.Path) (st : State)
  : option (State * list Effect) :=
  c ← heap st !! path.Conf pa;
  match paths st !! Source c with
  | Some pmpa =>
      if negb (path.id pmpa =? path.id pa)%nat then Some (st, [])
      else Some (set_paths st (delete (Source c) (paths st)), [PathClose pa])
  | None => Some (st, [])
  end.

(** The part [case req := <-pm.rpDescribe] and
    [case req := <-pm.rpSetupPlay] share: everything up to the call into
    the Path, which [forward] makes. *)
Definition onPlay `{ConfPkg}
    (forward : option path.Path → readpublisher.Req → Effect)
    (net : Network) (req : readpublisher.Req) (st : State)
  : option (State * list Effect) :=
  '(st, found) ← findPathConf st (readpublisher.PathName req);
  match found with
  | Err err => Some (st, [Reply (readpublisher.Res req) err])
  | Ok (pathName, pathConf) =>
      c ← heap st !! pathConf;
      let '(action, sent) :=
        DoAuthRequest net c
          {| RemoteAddr := readpublisher.RemoteAddr req;
             LocalAddr := readpublisher.LocalAddr req;
             Path := readpublisher.PathName req |} in
      match action with
      | Err err => Some (st, (HTTPDo <$> sent) ++ [Reply (readpublisher.Res req) err])
      | Ok action =>
          if Close action then
            Some (st, (HTTPDo <$> sent)
                        ++ [Reply (readpublisher.Res req) (Errorf "not allowed")])
          else
            '(h, pathConf) ←
              (if bool_decide (Target action ≠ "") then
                 let '(h, p) := alloc (heap st) c in
                 h ← store_Source h p (Target action);
                 Some (h, p)
               else Some (heap st, pathConf));
            let st := set_heap st h in
            c ← heap st !! pathConf;
            match authenticate (authMethods st) (readpublisher.IP req)
                    (readpublisher.ValidateCredentials req)
                    (readpublisher.PathName req)
                    (ReadIPsParsed c) (ReadUser c) (ReadPass c) with
            | Some err =>
                Some (st, (HTTPDo <$> sent) ++ [Reply (readpublisher.Res req) err])
            | None =>
                (* create path if it doesn't exist *)
                let '(st, made) :=
                  match paths st !! Source c with
                  | None =>
                      let '(st, pa) :=
                        createPath st pathName pathConf (readpublisher.PathName req) in
                      (set_paths st (<[Source c := pa]> (paths st)), [PathNew pa])
                  | Some _ => (st, [])
                  end in
                Some (st, (HTTPDo <$> sent) ++ made
                            ++ [forward (paths st !! Source c) req])
            end
      end
  end.

Definition onDescribe `{ConfPkg} := onPlay OnPathManDescribe.
Definition onSetupPlay `{ConfPkg} := onPlay OnPathManSetupPlay.

(** [case req := <-pm.rpAnnounce]: the Path [createPath] returns is
    dropped. *)
Definition onAnnounce `{ConfPkg} (req : readpublisher.Req) (st : State)
  : option (State * list Effect) :=
  '(st, found) ← findPathConf st (readpublisher.PathName req);
  match found with
  | Err err => Some (st, [Reply (readpublisher.Res req) err])
  | Ok (pathName, pathConf) =>
      c ← heap st !! pathConf;
      match authenticate (authMethods st) (readpublisher.IP req)
              (readpublisher.ValidateCredentials req)
              (readpublisher.PathName req)
              (PublishIPsParsed c) (PublishUser c) (PublishPass c) with
      | Some err => Some (st, [Reply (readpublisher.Res req) err])
      | None =>
          (* create path if it doesn't exist *)
          let '(st, made) :=
            match paths st !! Source c with
            | None =>
                let '(st, pa) :=
                  createPath st pathName pathConf (readpublisher.PathName req) in
                (st, [PathNew pa])
            | Some _ => (st, [])
            end in
          Some (st, made ++ [OnPathManAnnounce (paths st !! Source c) req])
      end
  end.

(** The events [run] selects on, with what the world answers while the
    event is handled.  A reload comes with the objects the loader of the
    configuration has allocated for it. *)
Inductive Event `{GoLib} :=
| ConfReload (loaded : list PathConf) (pathConfs : gmap string ptr)
| PathCloseReq (pa : path.Path)
| Describe (net : Network) (req : readpublisher.Req)
| SetupPlay (net : Network) (req : readpublisher.Req)
| Announce (req : readpublisher.Req).

(** One turn of the loop of [run]; [None] is the panic of a nil
    pointer dereference. *)
Definition run_step `{ConfPkg} (ev : Event) (st : State)
  : option (State * list Effect) :=
  match ev with
  | ConfReload loaded pathConfs =>
      onConfReload pathConfs (set_heap st (heap st ++ loaded))
  | PathCloseReq pa => onPathClose pa st
  | Describe net req => onDescribe net req st
  | SetupPlay net req => onSetupPlay net req st
  | Announce req => onAnnounce req st
  end.

(** [run] over the events that arrive before the context is done. *)
Fixpoint run `{ConfPkg} (evs : list Event) (st : State)
  : option (State * list Effect) :=
  match evs with
  | [] => Some (st, [])
  | ev :: rest =>
      '(st1, out1) ← run_step ev st;
      '(st2, out2) ← run rest st1;
      Some (st2, out1 ++ out2)
  end.

(** ** The metrics exporter *)

Module metrics.

(** [http.Server], as far as [Shutdown] and [ListenAndServe] share
    state. *)
Record Server := {
  inShutdown : bool
}.

Record Metrics := {
  server : Server
}.

(** [Server.Shutdown] *)
Definition Shutdown (srv : Server) : Server :=
  {| inShutdown := true |}.

(** What ends the serving of a listener that was opened: a failure of
    the listener itself, or a [Shutdown] that closes it. *)
Inductive ServeEnd :=
| AcceptFails (err : error)
| ShutdownArrives.

(** [Server.ListenAndServe], when it returns: [listenErr] is the error
    of opening the listener, if any. *)
Definition ListenAndServe (srv : Server) (listenErr : option error)
    (serveEnd : ServeEnd) : error :=
  if inShutdown srv then ErrServerClosed
  else
    match listenErr with
    | Some err => err
    | None =>
        match serveEnd with
        | AcceptFails err => err
        | ShutdownArrives => ErrServerClosed
        end
    end.

(** How a goroutine ends. *)
Inductive Outcome :=
| Returns
| Panics (v : error).

(** [Metrics.Close] *)
Definition Close (m : Metrics) : Metrics :=
  {| server := Shutdown (server m) |}.

(** [Metrics.run] *)
Definition run (m : Metrics) (listenErr : option error) (serveEnd : ServeEnd)
  : Outcome :=
  let err := ListenAndServe (server m) listenErr serveEnd in
  if bool_decide (err ≠ ErrServerClosed) then Panics err else Returns.

End metrics.

(** ** An instance of the parameters *)

(** IPv4 and IPv6 addresses as byte lists, networks as an address and a
    mask, patterns that match the names they are a prefix of, and maps
    ranged over in the order of their listing. *)
Module Sample.

Definition ip_bytes (ip : option (list Z)) : list Z := default [] ip.

Definition ip_equal (a b : option (list Z)) : bool :=
  bool_decide (ip_bytes a = ip_bytes b).

Definition masked (mask bytes : list Z) : list Z := zip_with Z.land bytes mask.

Definition net_contains (n : list Z * list Z) (ip : option (list Z)) : bool :=
  bool_decide (length (ip_bytes ip) = length n.1)
  && bool_decide (masked n.2 (ip_bytes ip) = masked n.2 n.1).

Fixpoint dotted (bytes : list Z) : string :=
  match bytes with
  | [] => ""
  | [b] => pretty b
  | b :: rest => pretty b +:+ "." +:+ dotted rest
  end.

Definition ip_string (ip : option (list Z)) : string :=
  match ip with
  | None => "<nil>"
  | Some bytes => dotted bytes
  end.

#[export] Instance lib : GoLib := {|
  net_IP := option (list Z);
  net_IPNet := list Z * list Z;
  regexp_Regexp := string;
  IP_isNil := λ ip, bool_decide (ip = None);
  IP_Equal := ip_equal;
  IPNet_Contains := net_contains;
  IP_String := ip_string;
  Regexp_MatchString := String.prefix;
  range_keys := λ l, l;
  range_keys_perm := λ l, reflexivity l
|}.

#[export] Instance IPItem_eq_dec : EqDecision (@IPItem lib).
Proof. solve_decision. Defined.

#[export] Instance PathConf_eq_dec : EqDecision (@PathConf lib).
Proof. solve_decision. Defined.

Definition is_control (a : ascii) : bool :=
  (nat_of_ascii a <? 32)%nat || (nat_of_ascii a =? 127)%nat.

(** The segments of a name between its slashes, [cur] being the
    segment read so far. *)
Fixpoint segments (cur : string) (name : string) : list string :=
  match name with
  | EmptyString => [cur]
  | String a rest =>
      if bool_decide (a = "/"%char) then cur :: segments "" rest
      else segments (cur +:+ String a EmptyString) rest
  end.

(** Modelled from the spec: [conf.CheckPathName] is not part of the
    sources at hand; a name is rejected when it contains a control
    character, begins or ends with a slash, or has an empty segment. *)
Definition check_path_name (name : string) : option string :=
  if existsb is_control (list_ascii_of_string name) then
    Some "contains control characters"
  else if existsb (λ seg, bool_decide (seg = "")) (segments "" name) then
    Some "contains an empty segment"
  else None.

(** Modelled from the spec: [GetInstance] is not part of the sources at
    hand; the entry of a literal name is returned as it is, the entry of
    a regular expression is instantiated as a new object for the live
    name. *)
Definition get_instance (c : @PathConf lib) (name : string) : option (@PathConf lib) :=
  match Regexp c with
  | Some _ => Some c
  | None => None
  end.

(** Modelled from the spec: [Equal] is not part of the sources at hand;
    equality is structural over every field. *)
#[export] Instance pkg : ConfPkg := {|
  CheckPathName := check_path_name;
  PathConf_Equal := λ a b, bool_decide (a = b);
  instantiate := get_instance
|}.

(** A path that accepts a publisher, with no gate and no hook. *)
Definition publisher : PathConf := {|
  Regexp := None; Source := "publisher"; SourceOnDemand := false;
  PublishUser := ""; PublishPass := ""; PublishIPsParsed := None;
  ReadUser := ""; ReadPass := ""; ReadIPsParsed := None;
  HTTPCallback := "";
  RunOnInit := ""; RunOnDemand := ""; RunOnPublish := ""; RunOnRead := ""
|}.

Definition with_callback (c : PathConf) (url : string) : PathConf := {|
  Regexp := Regexp c; Source := Source c; SourceOnDemand := SourceOnDemand c;
  PublishUser := PublishUser c; PublishPass := PublishPass c;
  PublishIPsParsed := PublishIPsParsed c;
  ReadUser := ReadUser c; ReadPass := ReadPass c; ReadIPsParsed := ReadIPsParsed c;
  HTTPCallback := url;
  RunOnInit := RunOnInit c; RunOnDemand := RunOnDemand c;
  RunOnPublish := RunOnPublish c; RunOnRead := RunOnRead c
|}.

Definition with_readIPs (c : PathConf) (ips : list IPItem) : PathConf := {|
  Regexp := Regexp c; Source := Source c; SourceOnDemand := SourceOnDemand c;
  PublishUser := PublishUser c; PublishPass := PublishPass c;
  PublishIPsParsed := PublishIPsParsed c;
  ReadUser := ReadUser c; ReadPass := ReadPass c; ReadIPsParsed := Some ips;
  HTTPCallback := HTTPCallback c;
  RunOnInit := RunOnInit c; RunOnDemand := RunOnDemand c;
  RunOnPublish := RunOnPublish c; RunOnRead := RunOnRead c
|}.

Definition with_regexp (c : PathConf) (re : string) : PathConf := {|
  Regexp := Some re; Source := Source c; SourceOnDemand := SourceOnDemand c;
  PublishUser := PublishUser c; PublishPass := PublishPass c;
  PublishIPsParsed := PublishIPsParsed c;
  ReadUser := ReadUser c; ReadPass := ReadPass c; ReadIPsParsed := ReadIPsParsed c;
  HTTPCallback := HTTPCallback c;
  RunOnInit := RunOnInit c; RunOnDemand := RunOnDemand c;
  RunOnPublish := RunOnPublish c; RunOnRead := RunOnRead c
|}.

(** The network 10.0.0.0/8. *)
Definition net10 : IPItem := ItemIPNet ([10; 0; 0; 0], [255; 0; 0; 0]).

(** A request for [name] from [ip], without credentials. *)
Definition request (name : string) (ip : option (list Z)) (res : nat)
  : readpublisher.Req := {|
  readpublisher.PathName := name;
  readpublisher.RemoteAddr := "192.168.1.5:40000";
  readpublisher.LocalAddr := "192.168.1.1:8554";
  readpublisher.IP := ip;
  readpublisher.ValidateCredentials := None;
  readpublisher.Res := res
|}.

(** A network whose every server answers with [status] and, when
    [location] is not empty, a [Location] header. *)
Definition answering (status : Z) (location : string) : Network :=
  λ _, Ok {| StatusCode := status;
             Header := if bool_decide (location = "") then []
                       else [("Location", location)] |}.

(** The manager over one literal path [cam1] with configuration [c]. *)
Definition manager (c : PathConf) : State := {|
  heap := [c]; authMethods := [AuthBasic; AuthDigest];
  pathConfs := {[ "cam1" := 0%nat ]}; paths := ∅; pathsMade := 0
|}.

End Sample.

(** ** Notions the properties are stated with *)

(** The request [DoAuthRequest] posts to a callback. *)
Definition authPost (url : string) (p : PlayRequestPayload) : HTTPRequest :=
  {| Method := "POST"; URL := url; ContentType := "application/json";
     Body := Some p |}.

(** The payload the manager builds from a request. *)
Definition playPayload `{GoLib} (req : readpublisher.Req) : PlayRequestPayload :=
  {| RemoteAddr := readpublisher.RemoteAddr req;
     LocalAddr := readpublisher.LocalAddr req;
     Path := readpublisher.PathName req |}.

(** [ip] is equal to a listed address or contained in a listed network. *)
Definition listed `{GoLib} (ip : net_IP) (ips : list IPItem) : Prop :=
  ∃ item, item ∈ ips ∧
    match item with
    | ItemIP a => IP_Equal a ip = true
    | ItemIPNet n => IPNet_Contains n ip = true
    | ItemOther => False
    end.

(** The answer of the credential validator alone: what [authenticate]
    returns once the address is let through. *)
Definition credentialCheck (authMethods : list AuthMethod)
    (validateCredentials : option CredentialValidator)
    (pathUser pathPass : string) : option error :=
  match validateCredentials with
  | Some validate =>
      if bool_decide (pathUser ≠ "") then validate authMethods pathUser pathPass
      else None
  | None => None
  end.

(** The replies among the effects, each with its channel, and the Paths
    created and closed. *)
Definition replies `{GoLib} (out : list Effect) : list (nat * error) :=
  omap (λ e, match e with Reply res err => Some (res, err) | _ => None end) out.

Definition made `{GoLib} (out : list Effect) : list path.Path :=
  omap (λ e, match e with PathNew pa => Some pa | _ => None end) out.

Definition closed `{GoLib} (out : list Effect) : list path.Path :=
  omap (λ e, match e with PathClose pa => Some pa | _ => None end) out.

(** The Paths the effects call into. *)
Definition forwards `{GoLib} (out : list Effect) : list (option path.Path) :=
  omap (λ e, match e with
             | OnPathManDescribe pa _ | OnPathManSetupPlay pa _
             | OnPathManAnnounce pa _ => Some pa
             | _ => None
             end) out.

(** The handling of a request ends in a refusal: one reply, the error
    [err] on the channel [res], no Path created or called, and the live
    Paths and the registry as they were. *)
Definition refused `{GoLib} (r : option (State * list Effect)) (st : State)
    (res : nat) (err : error) : Prop :=
  ∃ st' out, r = Some (st', out)
    ∧ replies out = [(res, err)] ∧ made out = [] ∧ forwards out = []
    ∧ paths st' = paths st ∧ pathConfs st' = pathConfs st.

(** The configuration [GetInstance] hands out for [c]. *)
Definition instance_of `{ConfPkg} (c : PathConf) (name : string) : PathConf :=
  default c (instantiate c name).

(** Every pointer of the registry points to an object. *)
Definition confs_allocated `{GoLib} (h : list PathConf) (confs : gmap string ptr)
  : Prop :=
  ∀ k p, confs !! k = Some p → is_Some (h !! p).

(** The entry under [k] is a regular expression that matches [name]. *)
Definition regexp_matches `{GoLib} (h : list PathConf) (confs : gmap string ptr)
    (name k : string) : Prop :=
  ∃ p c re, confs !! k = Some p ∧ h !! p = Some c ∧ Regexp c = Some re
    ∧ Regexp_MatchString re name = true.

(** The ways a Describe or SetupPlay fails before a Path is looked for:
    the resolution of the name, the callback (an error, or a denial), and
    the authorisation. *)
Inductive PlayFails `{ConfPkg} (net : Network) (req : readpublisher.Req)
    (st : State) : error → Prop :=
| fails_resolution st1 err :
    findPathConf st (readpublisher.PathName req) = Some (st1, Err err) →
    PlayFails net req st err
| fails_callback st1 pathName pathConf c err sent :
    findPathConf st (readpublisher.PathName req) = Some (st1, Ok (pathName, pathConf)) →
    heap st1 !! pathConf = Some c →
    DoAuthRequest net c (playPayload req) = (Err err, sent) →
    PlayFails net req st err
| fails_denied st1 pathName pathConf c action sent :
    findPathConf st (readpublisher.PathName req) = Some (st1, Ok (pathName, pathConf)) →
    heap st1 !! pathConf = Some c →
    DoAuthRequest net c (playPayload req) = (Ok action, sent) →
    Close action = true →
    PlayFails net req st (Errorf "not allowed")
| fails_authorisation st1 pathName pathConf c action sent err :
    findPathConf st (readpublisher.PathName req) = Some (st1, Ok (pathName, pathConf)) →
    heap st1 !! pathConf = Some c →
    DoAuthRequest net c (playPayload req) = (Ok action, sent) →
    Close action = false →
    authenticate (authMethods st) (readpublisher.IP req)
      (readpublisher.ValidateCredentials req) (readpublisher.PathName req)
      (ReadIPsParsed c) (ReadUser c) (ReadPass c) = Some err →
    PlayFails net req st err.

(** The incoming map has the keys of the stored one, and under each key
    an object [Equal] to the stored one. *)
Definition same_confs `{ConfPkg} (h : list PathConf)
    (newConfs confs : gmap string ptr) : Prop :=
  (∀ k, is_Some (newConfs !! k) ↔ is_Some (confs !! k))
  ∧ ∀ k p q, confs !! k = Some p → newConfs !! k = Some q →
      ∃ c d, h !! p = Some c ∧ h !! q = Some d ∧ PathConf_Equal c d = true.

(** The configuration of the Path is the object the registry stores
    under the Path's configuration name. *)
Definition conf_stored (confs : gmap string ptr) (pa : path.Path) : Prop :=
  confs !! path.ConfName pa = Some (path.Conf pa).

(** What the redirect of a callback to [target] leaves behind: the heap
    with the copy at its end, the address of the copy, and its contents;
    with no target, the heap, the pointer and the contents as they were. *)
Definition redirect_heap `{GoLib} (h : list PathConf) (c : PathConf)
    (target : string) : list PathConf :=
  if bool_decide (target ≠ "") then h ++ [set_Source c target] else h.

Definition redirect_ptr `{GoLib} (h : list PathConf) (pathConf : ptr)
    (target : string) : ptr :=
  if bool_decide (target ≠ "") then length h else pathConf.

Definition redirect_conf `{GoLib} (c : PathConf) (target : string) : PathConf :=
  if bool_decide (target ≠ "") then set_Source c target else c.

(** The address is let through by the list: there is no list, or the
    address is nil, or it is listed. *)
Definition ip_gate_open `{GoLib} (ip : net_IP) (pathIPs : option (list IPItem))
  : Prop :=
  match pathIPs with
  | None => True
  | Some ips => IP_isNil ip = true ∨ listed ip ips
  end.

(** The error [authenticate] builds for an address. *)
Definition ip_not_allowed `{GoLib} (ip : net_IP) : error :=
  ErrAuthCritical ("IP '" +:+ IP_String ip +:+ "' not allowed") StatusUnauthorized.

(** The element is an address or a network. *)
Definition is_address_item `{GoLib} (item : IPItem) : bool :=
  match item with
  | ItemOther => false
  | _ => true
  end.

(** The HTTP requests among the effects. *)
Definition posts `{GoLib} (out : list Effect) : list HTTPRequest :=
  omap (λ e, match e with HTTPDo r => Some r | _ => None end) out.

(** The live Paths are told apart by their [id]: each was made before
    the next [path.New], and no two keys hold Paths of one [id]. *)
Definition paths_wf `{GoLib} (st : State) : Prop :=
  (∀ src pa, paths st !! src = Some pa → (path.id pa < pathsMade st)%nat)
  ∧ (∀ src1 src2 pa1 pa2,
       paths st !! src1 = Some pa1 → paths st !! src2 = Some pa2 →
       path.id pa1 = path.id pa2 → src1 = src2).

(** The pointer the registry holds under [k] after the reload of
    [newConfs] over [confs]: nothing for a key the incoming map lacks, the
    incoming pointer for a new key, and for a key of both the stored
    pointer when the two objects are [Equal], the incoming one when not. *)
Definition reloaded `{ConfPkg} (h : list PathConf) (confs newConfs : gmap string ptr)
    (k : string) : option ptr :=
  match newConfs !! k with
  | None => None
  | Some q =>
      match confs !! k with
      | None => Some q
      | Some p =>
          match h !! p, h !! q with
          | Some c, Some d => if PathConf_Equal c d then Some p else Some q
          | _, _ => None
          end
      end
  end.

(** The event is a reload. *)
Definition is_reload `{GoLib} (ev : Event) : bool :=
  match ev with
  | ConfReload _ _ => true
  | _ => false
  end.

(** * Properties *)

(** ** The HTTP client *)

Lemma Client_do_last_response fuel net req via :
  Client_do fuel {| CheckRedirect := Some (λ _ _, Some ErrUseLastResponse) |}
    net req via = (net req, via ++ [req]).
Proof.
  destruct fuel; simpl; destruct (net req) as [resp|e]; try done;
    destruct (redirectBehavior _ resp) as [[m b]|]; try done;
    case_bool_decide; done.
Qed.

Lemma DoAuthRequest_no_callback `{GoLib} net (pathConf : PathConf) p :
  HTTPCallback pathConf = "" →
  DoAuthRequest net pathConf p = (Ok {| Close := false; Target := "" |}, []).
Proof. intros Hcb. unfold DoAuthRequest. by rewrite bool_decide_eq_true_2. Qed.

(** Whatever the network answers, the call sends at most the one request
    to the callback. *)
Lemma DoAuthRequest_sent `{GoLib} net (pathConf : PathConf) p r sent :
  DoAuthRequest net pathConf p = (r, sent) →
  sent = [] ∨ sent = [authPost (HTTPCallback pathConf) p].
Proof.
  unfold DoAuthRequest, Client_Post. rewrite Client_do_last_response.
  case_bool_decide; [intros [= <- <-]; by left|].
  intros Heq. right.
  destruct (net _) as [resp|e]; simpl in Heq;
    repeat case_match; simplify_eq; reflexivity.
Qed.



(** ** The address gate *)

Lemma ipEqualOrInRange_listed `{GoLib} (ip : net_IP) (ips : list IPItem) :
  ipEqualOrInRange ip ips = true ↔ listed ip ips.
Proof.
  unfold listed. induction ips as [|item rest IH]; simpl.
  - split; [done|]. intros (item & Hin & _). by apply elem_of_nil in Hin.
  - destruct item as [a|n|].
    + destruct (IP_Equal a ip) eqn:Heq.
      * split; [|done]. intros _. exists (ItemIP a). split; [left|done].
      * rewrite IH. split.
        -- intros (item & Hin & Hit). exists item. split; [by right|done].
        -- intros (item & Hin & Hit). apply elem_of_cons in Hin as [->|Hin].
           ++ congruence.
           ++ by exists item.
    + destruct (IPNet_Contains n ip) eqn:Heq.
      * split; [|done]. intros _. exists (ItemIPNet n). split; [left|done].
      * rewrite IH. split.
        -- intros (item & Hin & Hit). exists item. split; [by right|done].
        -- intros (item & Hin & Hit). apply elem_of_cons in Hin as [->|Hin].
           ++ congruence.
           ++ by exists item.
    + rewrite IH. split.
      * intros (item & Hin & Hit). exists item. split; [by right|done].
      * intros (item & Hin & Hit). apply elem_of_cons in Hin as [->|Hin].
        -- done.
        -- by exists item.
Qed.

Lemma authenticate_no_list `{GoLib} am (ip : net_IP) vc name user pass :
  authenticate am ip vc name None user pass = credentialCheck am vc user pass.
Proof. reflexivity. Qed.

Lemma authenticate_rejects `{GoLib} am (ip : net_IP) vc name ips user pass :
  IP_isNil ip = false →
  ¬ listed ip ips →
  authenticate am ip vc name (Some ips) user pass
  = Some (ErrAuthCritical ("IP '" +:+ IP_String ip +:+ "' not allowed")
                          StatusUnauthorized).
Proof.
  intros Hnil Hnot. unfold authenticate. rewrite Hnil. simpl.
  destruct (ipEqualOrInRange ip ips) eqn:Hin; [|done].
  by apply ipEqualOrInRange_listed in Hin.
Qed.

Lemma authenticate_listed `{GoLib} am (ip : net_IP) vc name ips user pass :
  listed ip ips →
  authenticate am ip vc name (Some ips) user pass = credentialCheck am vc user pass.
Proof.
  intros Hin%ipEqualOrInRange_listed. unfold authenticate.
  rewrite Hin. by destruct (IP_isNil ip).
Qed.

(** The configuration a redirect is written into has the gates of the
    one it copies. *)
Lemma authenticate_set_Source `{GoLib} am (ip : net_IP) vc name (c : PathConf) target :
  authenticate am ip vc name (ReadIPsParsed (set_Source c target))
    (ReadUser (set_Source c target)) (ReadPass (set_Source c target))
  = authenticate am ip vc name (ReadIPsParsed c) (ReadUser c) (ReadPass c).
Proof. reflexivity. Qed.

(** C10: for a request without a client address ([ip == nil]) the list
    of allowed addresses is not consulted: [authenticate] returns what the
    credential check alone returns, whatever the list, so no error about
    the address can come out of it. *)
Theorem authenticate_nil_ip_skips_gate `{GoLib} (am : list AuthMethod)
    (ip : net_IP) (vc : option CredentialValidator) (name : string)
    (ips : option (list IPItem)) (user pass : string) :
  IP_isNil ip = true →
  authenticate am ip vc name ips user pass = credentialCheck am vc user pass
  ∧ (vc = None ∨ user = "" → authenticate am ip vc name ips user pass = None).
Proof.
  intros Hnil.
  assert (authenticate am ip vc name ips user pass = credentialCheck am vc user pass)
    as Heq.
  { unfold authenticate. rewrite Hnil. by destruct ips. }
  split; [done|]. rewrite Heq. unfold credentialCheck.
  intros [->| ->]; [done|]. by destruct vc.
Qed.

Lemma authenticate_nil_ip_skips_gate_witness :
  authenticate [AuthBasic] (None : @net_IP Sample.lib) None "cam1"
    (Some [Sample.net10]) "" "" = None.
Proof.
  destruct (authenticate_nil_ip_skips_gate [AuthBasic]
              (None : @net_IP Sample.lib) None "cam1"
              (Some [Sample.net10]) "" "") as [_ Hnone].
  - reflexivity.
  - apply Hnone. by left.
Defined.

(** ** The metrics exporter *)

(** C9: when [ListenAndServe] returns an error other than
    [ErrServerClosed], [run] panics with it, and it returns normally on
    [ErrServerClosed]; after [Close], whether it came before the server
    started or while it served, [ListenAndServe] returns [ErrServerClosed]
    and [run] does not panic. *)
Theorem metrics_run_panics_unless_closed (m : metrics.Metrics)
    (listenErr : option error) (serveEnd : metrics.ServeEnd) :
  (metrics.ListenAndServe (metrics.server m) listenErr serveEnd ≠ ErrServerClosed →
     metrics.run m listenErr serveEnd
     = metrics.Panics (metrics.ListenAndServe (metrics.server m) listenErr serveEnd))
  ∧ (metrics.ListenAndServe (metrics.server m) listenErr serveEnd = ErrServerClosed →
       metrics.run m listenErr serveEnd = metrics.Returns)
  ∧ metrics.run (metrics.Close m) listenErr serveEnd = metrics.Returns
  ∧ metrics.run m None metrics.ShutdownArrives = metrics.Returns.
Proof.
  unfold metrics.run. split; [|split; [|split]].
  - intros Hne. by rewrite bool_decide_eq_true_2.
  - intros ->. reflexivity.
  - reflexivity.
  - unfold metrics.ListenAndServe.
    destruct (metrics.inShutdown (metrics.server m)); reflexivity.
Qed.

Lemma metrics_run_panics_unless_closed_witness :
  metrics.run {| metrics.server := {| metrics.inShutdown := false |} |}
    (Some (ErrExternal "listen tcp :9998: bind: address already in use"))
    metrics.ShutdownArrives
  = metrics.Panics (ErrExternal "listen tcp :9998: bind: address already in use").
Proof.
  destruct (metrics_run_panics_unless_closed
              {| metrics.server := {| metrics.inShutdown := false |} |}
              (Some (ErrExternal "listen tcp :9998: bind: address already in use"))
              metrics.ShutdownArrives) as [Hpanic _].
  apply Hpanic. discriminate.
Defined.

(** ** The heap and the registry *)

Lemma set_heap_id `{GoLib} (st : State) : set_heap st (heap st) = st.
Proof. by destruct st. Qed.

Lemma GetInstance_Some `{ConfPkg} (h : list PathConf) (p : ptr) name c :
  h !! p = Some c →
  ∃ h' q, GetInstance h p name = Some (h', q)
    ∧ h `prefix_of` h' ∧ h' !! q = Some (instance_of c name).
Proof.
  intros Hc. unfold GetInstance, instance_of. rewrite Hc. simpl.
  destruct (instantiate c name) as [c'|]; simpl.
  - exists (h ++ [c']), (length h). split; [done|]. split.
    + by apply prefix_app_r.
    + by rewrite lookup_app_r, Nat.sub_diag.
  - by exists h, p.
Qed.

Lemma GetInstance_inv `{ConfPkg} (h : list PathConf) (p : ptr) name h' q :
  GetInstance h p name = Some (h', q) →
  h `prefix_of` h' ∧ ∃ c, h !! p = Some c ∧ h' !! q = Some (instance_of c name).
Proof.
  intros Hget. destruct (h !! p) as [c|] eqn:Hc.
  - destruct (GetInstance_Some h p name c Hc) as (h2 & q2 & Heq & Hpre & Hq).
    rewrite Hget in Heq. simplify_eq. split; [done|]. by exists c.
  - unfold GetInstance in Hget. by rewrite Hc in Hget.
Qed.

(** Resolution leaves the manager as it was, up to new objects at the
    end of the heap; what it returns points to an object. *)
Lemma findPathConf_inv `{ConfPkg} (st st1 : State) name r :
  findPathConf st name = Some (st1, r) →
  st1 = set_heap st (heap st1) ∧ heap st `prefix_of` heap st1
  ∧ match r with
    | Ok (_, q) => is_Some (heap st1 !! q)
    | Err _ => st1 = st
    end.
Proof.
  unfold findPathConf. intros Hfind.
  destruct (CheckPathName name) as [e|].
  { simplify_eq. by rewrite set_heap_id. }
  destruct (pathConfs st !! name) as [p|].
  - destruct (GetInstance (heap st) p name) as [[h q]|] eqn:Hget; [|done].
    simpl in Hfind. simplify_eq.
    apply GetInstance_inv in Hget as (Hpre & c & _ & Hq). simpl. eauto.
  - destruct (findPathConf_loop _ _ _ _) as [[[k p]|]|]; simpl in Hfind; [| |done].
    + destruct (GetInstance (heap st) p name) as [[h q]|] eqn:Hget; [|done].
      simpl in Hfind. simplify_eq.
      apply GetInstance_inv in Hget as (Hpre & c & _ & Hq). simpl. eauto.
    + simplify_eq. by rewrite set_heap_id.
Qed.

Lemma prefix_lookup_Some' `{GoLib} (h h' : list PathConf) (p : ptr) c :
  h `prefix_of` h' → h !! p = Some c → h' !! p = Some c.
Proof. intros [k ->] Hc. by apply lookup_app_l_Some. Qed.

Lemma store_Source_alloc `{GoLib} (h : list PathConf) c target :
  store_Source (h ++ [c]) (length h) target = Some (h ++ [set_Source c target]).
Proof.
  unfold store_Source. rewrite lookup_app_r, Nat.sub_diag by done. simpl.
  f_equal. rewrite insert_app_r_alt, Nat.sub_diag by done. done.
Qed.

(** ** Describe and SetupPlay *)

(** A request whose name resolves and whose callback neither fails nor
    denies: the redirect, the authorisation, and the Path under the source
    of the configuration in use. *)
Lemma onPlay_allowed `{ConfPkg} fwd net req st st1 pathName pathConf c action sent :
  findPathConf st (readpublisher.PathName req) = Some (st1, Ok (pathName, pathConf)) →
  heap st1 !! pathConf = Some c →
  DoAuthRequest net c (playPayload req) = (Ok action, sent) →
  Close action = false →
  onPlay fwd net req st
  = let h2 := redirect_heap (heap st1) c (Target action) in
    let p2 := redirect_ptr (heap st1) pathConf (Target action) in
    let c2 := redirect_conf c (Target action) in
    match authenticate (authMethods st) (readpublisher.IP req)
            (readpublisher.ValidateCredentials req) (readpublisher.PathName req)
            (ReadIPsParsed c) (ReadUser c) (ReadPass c) with
    | Some err =>
        Some (set_heap st h2, (HTTPDo <$> sent) ++ [Reply (readpublisher.Res req) err])
    | None =>
        match paths st !! Source c2 with
        | Some pa =>
            Some (set_heap st h2, (HTTPDo <$> sent) ++ [fwd (Some pa) req])
        | None =>
            let pa := {| path.id := pathsMade st; path.ConfName := pathName;
                         path.Conf := p2;
                         path.Name := readpublisher.PathName req |} in
            Some ({| heap := h2; authMethods := authMethods st;
                     pathConfs := pathConfs st;
                     paths := <[Source c2 := pa]> (paths st);
                     pathsMade := S (pathsMade st) |},
                  (HTTPDo <$> sent) ++ [PathNew pa; fwd (Some pa) req])
        end
    end.
Proof.
  intros Hfind Hc Hdo Hclose.
  destruct (findPathConf_inv _ _ _ _ Hfind) as (Hst1 & _ & _).
  unfold onPlay. rewrite Hfind. simpl. rewrite Hc. simpl.
  unfold playPayload in Hdo. rewrite Hdo, Hclose.
  unfold redirect_heap, redirect_ptr, redirect_conf.
  rewrite Hst1. simpl.
  case_bool_decide as Htarget; simpl.
  - rewrite store_Source_alloc. simpl.
    rewrite lookup_app_r, Nat.sub_diag by done. simpl.
    destruct (authenticate _ _ _ _ _ _ _); [done|].
    destruct (paths st !! Target action) as [pa|] eqn:Hpa; simpl.
    + by rewrite Hpa.
    + by rewrite lookup_insert_eq.
  - rewrite Hc. simpl.
    destruct (authenticate _ _ _ _ _ _ _); [done|].
    destruct (paths st !! Source c) as [pa|] eqn:Hpa; simpl.
    + by rewrite Hpa.
    + by rewrite lookup_insert_eq.
Qed.

Lemma replies_HTTPDo `{GoLib} (sent : list HTTPRequest) : replies (HTTPDo <$> sent) = [].
Proof. unfold replies. by induction sent. Qed.

Lemma made_HTTPDo `{GoLib} (sent : list HTTPRequest) : made (HTTPDo <$> sent) = [].
Proof. unfold made. by induction sent. Qed.

Lemma closed_HTTPDo `{GoLib} (sent : list HTTPRequest) : closed (HTTPDo <$> sent) = [].
Proof. unfold closed. by induction sent. Qed.

Lemma forwards_HTTPDo `{GoLib} (sent : list HTTPRequest) : forwards (HTTPDo <$> sent) = [].
Proof. unfold forwards. by induction sent. Qed.

Lemma refused_reply `{GoLib} (st : State) h sent res err :
  refused (Some (set_heap st h, (HTTPDo <$> sent) ++ [Reply res err])) st res err.
Proof.
  eexists _, _. split; [done|].
  unfold replies, made, forwards. rewrite !omap_app.
  fold (replies (HTTPDo <$> sent)) (made (HTTPDo <$> sent))
    (forwards (HTTPDo <$> sent)).
  by rewrite replies_HTTPDo, made_HTTPDo, forwards_HTTPDo.
Qed.

Lemma onPlay_fails_refused `{ConfPkg} fwd net req st err :
  PlayFails net req st err →
  refused (onPlay fwd net req st) st (readpublisher.Res req) err.
Proof.
  intros [st1 err' Hfind
         |st1 pathName pathConf c err' sent Hfind Hc Hdo
         |st1 pathName pathConf c action sent Hfind Hc Hdo Hclose
         |st1 pathName pathConf c action sent err' Hfind Hc Hdo Hclose Hauth].
  - destruct (findPathConf_inv _ _ _ _ Hfind) as (_ & _ & ->).
    unfold onPlay. rewrite Hfind. simpl.
    rewrite <- (set_heap_id st) at 1. apply (refused_reply st (heap st) []).
  - destruct (findPathConf_inv _ _ _ _ Hfind) as (Hst1 & _ & _).
    unfold onPlay. rewrite Hfind. simpl. rewrite Hc. simpl.
    unfold playPayload in Hdo. rewrite Hdo, Hst1. apply refused_reply.
  - destruct (findPathConf_inv _ _ _ _ Hfind) as (Hst1 & _ & _).
    unfold onPlay. rewrite Hfind. simpl. rewrite Hc. simpl.
    unfold playPayload in Hdo. rewrite Hdo, Hclose, Hst1. apply refused_reply.
  - rewrite (onPlay_allowed fwd _ _ _ _ _ _ _ _ _ Hfind Hc Hdo Hclose).
    simpl. rewrite Hauth. apply refused_reply.
Qed.




(** C4: when the callback of a Describe or a SetupPlay answers with a
    redirect target, the manager allocates a copy of the resolved
    configuration and writes the target into the source of the copy.  No
    object that existed before is written: the registry holds the same
    pointers, and each points to the contents it pointed to.  From then on
    the copy is in use: the authorisation reads its gates, and the Path
    called is the one stored under the target, made with the copy as its
    configuration when none was live there. *)
Theorem redirect_writes_a_copy `{ConfPkg}
    (handler : Network → readpublisher.Req → State → option (State * list Effect))
    (net : Network) (req : readpublisher.Req) (st st1 : State)
    (pathName : string) (pathConf : ptr) (c : PathConf)
    (action : PlayRequestAction) (sent : list HTTPRequest) :
  handler = onDescribe ∨ handler = onSetupPlay →
  findPathConf st (readpublisher.PathName req) = Some (st1, Ok (pathName, pathConf)) →
  heap st1 !! pathConf = Some c →
  DoAuthRequest net c (playPayload req) = (Ok action, sent) →
  Close action = false →
  Target action ≠ "" →
  ∃ st' out, handler net req st = Some (st', out)
    ∧ heap st' = heap st1 ++ [set_Source c (Target action)]
    ∧ heap st' !! pathConf = Some c
    ∧ pathConfs st' = pathConfs st
    ∧ (∀ k p c0, pathConfs st !! k = Some p → heap st !! p = Some c0 →
         pathConfs st' !! k = Some p ∧ heap st' !! p = Some c0)
    ∧ match authenticate (authMethods st) (readpublisher.IP req)
              (readpublisher.ValidateCredentials req) (readpublisher.PathName req)
              (ReadIPsParsed (set_Source c (Target action)))
              (ReadUser (set_Source c (Target action)))
              (ReadPass (set_Source c (Target action))) with
      | Some err =>
          replies out = [(readpublisher.Res req, err)] ∧ paths st' = paths st
      | None =>
          ∃ pa, forwards out = [Some pa]
            ∧ paths st' !! Target action = Some pa
            ∧ (paths st !! Target action = None →
                 made out = [pa] ∧ path.Conf pa = length (heap st1))
      end.
Proof.
  intros Hhandler Hfind Hc Hdo Hclose Htarget.
  destruct (findPathConf_inv _ _ _ _ Hfind) as (Hst1 & Hpre & _).
  assert (∀ k p c0, pathConfs st !! k = Some p → heap st !! p = Some c0 →
            pathConfs st !! k = Some p
            ∧ (heap st1 ++ [set_Source c (Target action)]) !! p = Some c0) as Hreg.
  { intros k p c0 Hk Hp. split; [done|].
    apply lookup_app_l_Some. by eapply prefix_lookup_Some'. }
  assert ((heap st1 ++ [set_Source c (Target action)]) !! pathConf = Some c) as Hkept.
  { by apply lookup_app_l_Some. }
  destruct Hhandler as [->| ->]; unfold onDescribe, onSetupPlay.
  all: rewrite (onPlay_allowed _ _ _ _ _ _ _ _ _ _ Hfind Hc Hdo Hclose).
  all: unfold redirect_heap, redirect_ptr, redirect_conf.
  all: rewrite !bool_decide_eq_true_2 by done; simpl.
  all: destruct (authenticate _ _ _ _ _ _ _) as [err|];
    [|destruct (paths st !! Target action) as [pa|] eqn:Hpa].
  all: eexists _, _; (split; [reflexivity|]); simpl.
  all: split; [done|]; split; [done|]; split; [done|]; split; [done|].
  all: unfold replies, forwards, made; rewrite ?omap_app.
  all: fold (replies (HTTPDo <$> sent)) (forwards (HTTPDo <$> sent))
         (made (HTTPDo <$> sent)).
  all: rewrite ?replies_HTTPDo, ?forwards_HTTPDo, ?made_HTTPDo; simpl.
  all: try done.
  all: try (exists pa; done).
  all: eexists; split; [reflexivity|]; split; [by rewrite lookup_insert_eq|done].
Qed.

Lemma redirect_writes_a_copy_witness :
  ∃ st' out,
    @onDescribe Sample.lib Sample.pkg (Sample.answering 302 "rtsp://u/x")
      (Sample.request "cam1" None 7)
      (Sample.manager (Sample.with_callback Sample.publisher "http://auth/"))
    = Some (st', out)
    ∧ heap st' = [Sample.with_callback Sample.publisher "http://auth/";
                  set_Source (Sample.with_callback Sample.publisher "http://auth/")
                    "rtsp://u/x"]
    ∧ pathConfs st' = {[ "cam1" := 0%nat ]}.
Proof.
  destruct (@redirect_writes_a_copy Sample.lib Sample.pkg
              (@onDescribe Sample.lib Sample.pkg)
              (Sample.answering 302 "rtsp://u/x") (Sample.request "cam1" None 7)
              (Sample.manager (Sample.with_callback Sample.publisher "http://auth/"))
              (Sample.manager (Sample.with_callback Sample.publisher "http://auth/"))
              "cam1" 0%nat (Sample.with_callback Sample.publisher "http://auth/")
              {| Close := false; Target := "rtsp://u/x" |}
              [authPost "http://auth/" (playPayload (Sample.request "cam1" None 7))])
    as (st' & out & Hrun & Hheap & _ & Hconfs & _).
  - by left.
  - reflexivity.
  - reflexivity.
  - reflexivity.
  - reflexivity.
  - simpl. discriminate.
  - exists st', out. split; [exact Hrun|]. split; [exact Hheap|exact Hconfs].
Defined.

(** C7, as the code has it: a Describe or a SetupPlay that reaches the
    authorisation, against a configuration whose list of read addresses is
    not nil, from a client whose address is present ([ip != nil]): when the
    address is neither equal to a listed address nor contained in a listed
    network, the request is refused with an [ErrAuthCritical] of status
    401; when it is, the address is let through and the outcome of
    [authenticate] is that of the credential check. *)
Theorem read_ip_gate_present_ip `{ConfPkg}
    (handler : Network → readpublisher.Req → State → option (State * list Effect))
    (net : Network) (req : readpublisher.Req) (st st1 : State)
    (pathName : string) (pathConf : ptr) (c : PathConf)
    (action : PlayRequestAction) (sent : list HTTPRequest) (ips : list IPItem) :
  handler = onDescribe ∨ handler = onSetupPlay →
  findPathConf st (readpublisher.PathName req) = Some (st1, Ok (pathName, pathConf)) →
  heap st1 !! pathConf = Some c →
  DoAuthRequest net c (playPayload req) = (Ok action, sent) →
  Close action = false →
  ReadIPsParsed c = Some ips →
  IP_isNil (readpublisher.IP req) = false →
  (¬ listed (readpublisher.IP req) ips →
     refused (handler net req st) st (readpublisher.Res req)
       (ErrAuthCritical
          ("IP '" +:+ IP_String (readpublisher.IP req) +:+ "' not allowed") 401))
  ∧ (listed (readpublisher.IP req) ips →
       authenticate (authMethods st) (readpublisher.IP req)
         (readpublisher.ValidateCredentials req) (readpublisher.PathName req)
         (ReadIPsParsed c) (ReadUser c) (ReadPass c)
       = credentialCheck (authMethods st) (readpublisher.ValidateCredentials req)
           (ReadUser c) (ReadPass c)).
Proof.
  intros Hhandler Hfind Hc Hdo Hclose Hips Hnil. split.
  - intros Hnot.
    assert (PlayFails net req st
              (ErrAuthCritical
                 ("IP '" +:+ IP_String (readpublisher.IP req) +:+ "' not allowed")
                 401)) as Hfails.
    { eapply fails_authorisation; [exact Hfind|exact Hc|exact Hdo|exact Hclose|].
      rewrite Hips. by apply authenticate_rejects. }
    destruct Hhandler as [->| ->]; by apply onPlay_fails_refused.
  - intros Hin. rewrite Hips. by apply authenticate_listed.
Qed.

Lemma read_ip_gate_present_ip_witness :
  refused
    (@onDescribe Sample.lib Sample.pkg (Sample.answering 200 "")
       (Sample.request "cam1" (Some [192; 168; 1; 5]) 7)
       (Sample.manager (Sample.with_readIPs Sample.publisher [Sample.net10])))
    (Sample.manager (Sample.with_readIPs Sample.publisher [Sample.net10]))
    7 (ErrAuthCritical "IP '192.168.1.5' not allowed" 401).
Proof.
  apply (@read_ip_gate_present_ip Sample.lib Sample.pkg
           (@onDescribe Sample.lib Sample.pkg)
           (Sample.answering 200 "")
           (Sample.request "cam1" (Some [192; 168; 1; 5]) 7)
           (Sample.manager (Sample.with_readIPs Sample.publisher [Sample.net10]))
           (Sample.manager (Sample.with_readIPs Sample.publisher [Sample.net10]))
           "cam1" 0%nat (Sample.with_readIPs Sample.publisher [Sample.net10])
           {| Close := false; Target := "" |} [] [Sample.net10]).
  - by left.
  - reflexivity.
  - reflexivity.
  - reflexivity.
  - reflexivity.
  - reflexivity.
  - reflexivity.
  - intros Hin%ipEqualOrInRange_listed. vm_compute in Hin. discriminate.
Defined.

(** C7 as it is written fails for a request without a client address:
    the list is 10.0.0.0/8, the address is nil and so neither equal to a
    listed address nor contained in a listed network, and the Describe is
    not refused: a Path is made and called. *)
Lemma read_ip_gate_nil_ip_counterexample :
  ReadIPsParsed (Sample.with_readIPs Sample.publisher [Sample.net10])
    = Some [Sample.net10]
  ∧ ¬ listed (None : @net_IP Sample.lib) [Sample.net10]
  ∧ @onDescribe Sample.lib Sample.pkg (Sample.answering 200 "")
      (Sample.request "cam1" None 7)
      (Sample.manager (Sample.with_readIPs Sample.publisher [Sample.net10]))
    = Some ({| heap := [Sample.with_readIPs Sample.publisher [Sample.net10]];
               authMethods := [AuthBasic; AuthDigest];
               pathConfs := {[ "cam1" := 0%nat ]};
               paths := {[ "publisher" :=
                             {| path.id := 0; path.ConfName := "cam1";
                                path.Conf := 0%nat; path.Name := "cam1" |} ]};
               pathsMade := 1 |},
            [PathNew {| path.id := 0; path.ConfName := "cam1";
                        path.Conf := 0%nat; path.Name := "cam1" |};
             OnPathManDescribe
               (Some {| path.id := 0; path.ConfName := "cam1";
                        path.Conf := 0%nat; path.Name := "cam1" |})
               (Sample.request "cam1" None 7)])
  ∧ ∀ msg status,
      ¬ refused
          (@onDescribe Sample.lib Sample.pkg (Sample.answering 200 "")
             (Sample.request "cam1" None 7)
             (Sample.manager (Sample.with_readIPs Sample.publisher [Sample.net10])))
          (Sample.manager (Sample.with_readIPs Sample.publisher [Sample.net10]))
          7 (ErrAuthCritical msg status).
Proof.
  split; [reflexivity|]. split; [|split].
  - intros Hin%ipEqualOrInRange_listed. vm_compute in Hin. discriminate.
  - vm_compute. reflexivity.
  - intros msg status (st' & out & Hrun & Hreplies & _).
    vm_compute in Hrun. injection Hrun as _ <-. discriminate Hreplies.
Qed.

(** ** Resolution of a name *)

Lemma elem_of_keys_of `{GoLib} {V : Type} (m : gmap string V) (k : string) :
  k ∈ keys_of m ↔ is_Some (m !! k).
Proof.
  unfold keys_of. rewrite range_keys_perm, list_elem_of_fmap. split.
  - intros ([k' v] & -> & Hin). apply elem_of_map_to_list in Hin. by exists v.
  - intros [v Hv]. exists (k, v). split; [done|]. by apply elem_of_map_to_list.
Qed.

(** The loop passes over the keys whose entry is not a matching regular
    expression. *)
Lemma findPathConf_loop_skip `{GoLib} (h : list PathConf) confs name l1 rest :
  confs_allocated h confs →
  (∀ k, k ∈ l1 → ¬ regexp_matches h confs name k) →
  findPathConf_loop h confs name (l1 ++ rest) = findPathConf_loop h confs name rest.
Proof.
  intros Halloc. induction l1 as [|k l1 IH]; intros Hnone; [done|].
  assert (findPathConf_loop h confs name (l1 ++ rest)
          = findPathConf_loop h confs name rest) as IH'.
  { apply IH. intros k' Hk'. apply Hnone. by right. }
  simpl. destruct (confs !! k) as [p|] eqn:Hk; [|done].
  destruct (Halloc k p Hk) as [c Hc]. rewrite Hc. simpl.
  destruct (Regexp c) as [re|] eqn:Hre; [|done].
  destruct (Regexp_MatchString re name) eqn:Hm; [|done].
  destruct (Hnone k); [by left|]. by exists p, c, re.
Qed.

Lemma findPathConf_loop_first `{GoLib} (h : list PathConf) confs name l1 k l2 p :
  confs_allocated h confs →
  confs !! k = Some p →
  regexp_matches h confs name k →
  (∀ k', k' ∈ l1 → ¬ regexp_matches h confs name k') →
  findPathConf_loop h confs name (l1 ++ k :: l2) = Some (Some (k, p)).
Proof.
  intros Halloc Hk (p' & c & re & Hk' & Hc & Hre & Hm) Hnone.
  rewrite findPathConf_loop_skip by done. simplify_eq. simpl.
  by rewrite Hk, Hc; simpl; rewrite Hre, Hm.
Qed.

Lemma findPathConf_loop_none `{GoLib} (h : list PathConf) confs name keys :
  confs_allocated h confs →
  (∀ k, k ∈ keys → ¬ regexp_matches h confs name k) →
  findPathConf_loop h confs name keys = Some None.
Proof.
  intros Halloc Hnone.
  rewrite <- (app_nil_r keys). by rewrite findPathConf_loop_skip.
Qed.

Lemma regexp_matches_dec `{GoLib} (h : list PathConf) confs name k :
  regexp_matches h confs name k ∨ ¬ regexp_matches h confs name k.
Proof.
  unfold regexp_matches.
  destruct (confs !! k) as [p|] eqn:Hk;
    [|right; intros (p' & c' & re' & Hp' & _); congruence].
  destruct (h !! p) as [c|] eqn:Hc;
    [|right; intros (p' & c' & re' & Hp' & Hc' & _); congruence].
  destruct (Regexp c) as [re|] eqn:Hre;
    [|right; intros (p' & c' & re' & Hp' & Hc' & Hre' & _); congruence].
  destruct (Regexp_MatchString re name) eqn:Hm;
    [|right; intros (p' & c' & re' & Hp' & Hc' & Hre' & Hm'); congruence].
  left. by exists p, c, re.
Qed.

(** Among keys of which one matches, one is the first to match. *)
Lemma first_regexp_match `{GoLib} (h : list PathConf) confs name keys k :
  k ∈ keys → regexp_matches h confs name k →
  ∃ l1 k1 l2, keys = l1 ++ k1 :: l2 ∧ regexp_matches h confs name k1
    ∧ ∀ k', k' ∈ l1 → ¬ regexp_matches h confs name k'.
Proof.
  induction keys as [|a keys IH]; intros Hin Hk; [by apply elem_of_nil in Hin|].
  destruct (regexp_matches_dec h confs name a) as [Ha|Ha].
  - exists [], a, keys. split; [done|]. split; [done|].
    intros k' Hk'. by apply elem_of_nil in Hk'.
  - apply elem_of_cons in Hin as [->|Hin]; [done|].
    destruct (IH Hin Hk) as (l1 & k1 & l2 & -> & Hk1 & Hfirst).
    exists (a :: l1), k1, l2. split; [done|]. split; [done|].
    intros k' [->|Hk']%elem_of_cons; [done|]. by apply Hfirst.
Qed.

(** C5: [findPathConf] first checks the name, and an invalid name gives
    the error "invalid path name: ..." whatever the registry holds.  For a
    valid name, an entry under that very key is returned with the name as
    its key, instantiated for the name.  Otherwise the keys are ranged over
    and the first whose entry is a regular expression that matches the
    name is returned, instantiated for the name; one is returned as soon
    as some entry matches; and when none does, the error is "unable to
    find a valid configuration for path" with the name in quotes. *)
Theorem findPathConf_resolution `{ConfPkg} (st : State) (name : string) :
  (∀ err, CheckPathName name = Some err →
     findPathConf st name
     = Some (st, Err (Errorf ("invalid path name: " +:+ err +:+ " (" +:+ name +:+ ")"))))
  ∧ (CheckPathName name = None →
     confs_allocated (heap st) (pathConfs st) →
     (∀ p c, pathConfs st !! name = Some p → heap st !! p = Some c →
        ∃ st1 inst, findPathConf st name = Some (st1, Ok (name, inst))
          ∧ heap st1 !! inst = Some (instance_of c name))
     ∧ (pathConfs st !! name = None →
        (∀ l1 k l2 p c,
           keys_of (pathConfs st) = l1 ++ k :: l2 →
           regexp_matches (heap st) (pathConfs st) name k →
           (∀ k', k' ∈ l1 → ¬ regexp_matches (heap st) (pathConfs st) name k') →
           pathConfs st !! k = Some p → heap st !! p = Some c →
           ∃ st1 inst, findPathConf st name = Some (st1, Ok (k, inst))
             ∧ heap st1 !! inst = Some (instance_of c name))
        ∧ ((∃ k, regexp_matches (heap st) (pathConfs st) name k) →
           ∃ k st1 inst, regexp_matches (heap st) (pathConfs st) name k
             ∧ findPathConf st name = Some (st1, Ok (k, inst)))
        ∧ ((∀ k, ¬ regexp_matches (heap st) (pathConfs st) name k) →
           findPathConf st name
           = Some (st, Err (Errorf ("unable to find a valid configuration for path '"
                                      +:+ name +:+ "'")))))).
Proof.
  split.
  { intros err Herr. unfold findPathConf. by rewrite Herr. }
  intros Hvalid Halloc.
  assert (∀ l1 k l2 p c,
            pathConfs st !! name = None →
            keys_of (pathConfs st) = l1 ++ k :: l2 →
            regexp_matches (heap st) (pathConfs st) name k →
            (∀ k', k' ∈ l1 → ¬ regexp_matches (heap st) (pathConfs st) name k') →
            pathConfs st !! k = Some p → heap st !! p = Some c →
            ∃ st1 inst, findPathConf st name = Some (st1, Ok (k, inst))
              ∧ heap st1 !! inst = Some (instance_of c name)) as Hfirst.
  { intros l1 k l2 p c Hname Hkeys Hk Hnone Hp Hc.
    unfold findPathConf. rewrite Hvalid, Hname, Hkeys.
    rewrite (findPathConf_loop_first _ _ _ _ _ _ p) by done. simpl.
    destruct (GetInstance_Some (heap st) p name c Hc) as (h' & q & -> & _ & Hq).
    simpl. by exists (set_heap st h'), q. }
  split; [|intros Hname; split; [|split]].
  - intros p c Hp Hc. unfold findPathConf. rewrite Hvalid, Hp.
    destruct (GetInstance_Some (heap st) p name c Hc) as (h' & q & -> & _ & Hq).
    simpl. by exists (set_heap st h'), q.
  - intros l1 k l2 p c. by apply Hfirst.
  - intros [k Hk].
    assert (k ∈ keys_of (pathConfs st)) as Hin.
    { apply elem_of_keys_of. destruct Hk as (p & _ & _ & Hp & _). by exists p. }
    destruct (first_regexp_match _ _ _ _ _ Hin Hk) as (l1 & k1 & l2 & Hkeys & Hk1 & Hnone).
    pose proof Hk1 as (p & c & re & Hp & Hc & _).
    destruct (Hfirst l1 k1 l2 p c) as (st1 & inst & Hfind & _); try done.
    by exists k1, st1, inst.
  - intros Hnone. unfold findPathConf. rewrite Hvalid, Hname.
    rewrite findPathConf_loop_none; [done|done|]. intros k _. apply Hnone.
Qed.

Lemma findPathConf_resolution_witness :
  ∃ st1 inst,
    @findPathConf Sample.lib Sample.pkg
      {| heap := [Sample.publisher; Sample.with_regexp Sample.publisher "live/"];
         authMethods := []; pathConfs := {[ "cam1" := 0%nat; "~^live/" := 1%nat ]};
         paths := ∅; pathsMade := 0 |} "live/a"
    = Some (st1, Ok ("~^live/", inst))
    ∧ heap st1 !! inst = Some (Sample.with_regexp Sample.publisher "live/").
Proof.
  destruct (@findPathConf_resolution Sample.lib Sample.pkg
              {| heap := [Sample.publisher; Sample.with_regexp Sample.publisher "live/"];
                 authMethods := [];
                 pathConfs := {[ "cam1" := 0%nat; "~^live/" := 1%nat ]};
                 paths := ∅; pathsMade := 0 |} "live/a") as [_ Hvalid].
  destruct Hvalid as (_ & Hregexp).
  - vm_compute; reflexivity.
  - intros k p Hk. simpl in Hk.
    apply lookup_insert_Some in Hk as [[_ <-]|[_ Hk]].
    + by eexists.
    + apply lookup_singleton_Some in Hk as [_ <-]. by eexists.
  - destruct Hregexp as (Hfirst & _).
    { vm_compute. reflexivity. }
    destruct (Hfirst ["cam1"] "~^live/" [] 1%nat
                (Sample.with_regexp Sample.publisher "live/"))
      as (st1 & inst & Hfind & Hinst); [..|exists st1, inst; split; [exact Hfind|exact Hinst]].
    + vm_compute; reflexivity.
    + exists 1%nat, (Sample.with_regexp Sample.publisher "live/"), "live/".
      split_and!; vm_compute; reflexivity.
    + intros k' ->%list_elem_of_singleton (p & c & re & Hp & Hc & Hre & _).
      vm_compute in Hp. simplify_eq. vm_compute in Hc. simplify_eq.
    + vm_compute; reflexivity.
    + vm_compute; reflexivity.
Defined.

(** ** Creating Paths *)

(** [createPaths] makes Paths and drops them: the live Paths, the
    registry and the heap are what they were, and nothing is closed,
    answered or called. *)
Lemma createPaths_loop_inv `{GoLib} (keys : list string) (st st' : State) out :
  createPaths_loop keys st = Some (st', out) →
  paths st' = paths st ∧ pathConfs st' = pathConfs st ∧ heap st' = heap st
  ∧ closed out = [] ∧ replies out = [] ∧ forwards out = []
  ∧ length (made out) = length out.
Proof.
  revert st st' out. induction keys as [|k keys IH]; intros st st' out Hrun.
  { simpl in Hrun. by simplify_eq. }
  simpl in Hrun. destruct (pathConfs st !! k) as [p|]; [|by apply IH].
  destruct (heap st !! p) as [c|]; [|done]. simpl in Hrun.
  destruct (bool_decide (paths st !! Source c = None) && bool_decide (Regexp c = None));
    [|by apply IH].
  destruct (createPaths_loop keys _) as [[st2 out2]|] eqn:Hrest; [|done].
  simpl in Hrun. simplify_eq.
  apply IH in Hrest as (Hp & Hc & Hh & Hcl & Hre & Hfw & Hlen). simpl in *.
  by rewrite Hlen.
Qed.

Lemma createPaths_loop_Some `{GoLib} (keys : list string) (st : State) :
  confs_allocated (heap st) (pathConfs st) →
  is_Some (createPaths_loop keys st).
Proof.
  revert st. induction keys as [|k keys IH]; intros st Halloc; [by eexists|].
  simpl. destruct (pathConfs st !! k) as [p|] eqn:Hk; [|by apply IH].
  destruct (Halloc k p Hk) as [c Hc]. rewrite Hc. simpl.
  destruct (bool_decide (paths st !! Source c = None) && bool_decide (Regexp c = None));
    [|by apply IH].
  destruct (IH {| heap := heap st; authMethods := authMethods st;
                  pathConfs := pathConfs st; paths := paths st;
                  pathsMade := S (pathsMade st) |}) as [[st2 out2] ->]; [done|].
  by eexists.
Qed.

(** A literal entry with no live Path under its source makes
    [createPaths] call [path.New]. *)
Lemma createPaths_loop_makes `{GoLib} (keys : list string) (st st' : State) out k p c :
  createPaths_loop keys st = Some (st', out) →
  k ∈ keys → pathConfs st !! k = Some p → heap st !! p = Some c →
  Regexp c = None → paths st !! Source c = None →
  made out ≠ [].
Proof.
  revert st st' out. induction keys as [|a keys IH]; intros st st' out Hrun Hin Hk Hc Hre Hp.
  { by apply elem_of_nil in Hin. }
  simpl in Hrun. apply elem_of_cons in Hin as [<-|Hin].
  - rewrite Hk in Hrun. rewrite Hc in Hrun. simpl in Hrun.
    rewrite Hp, Hre in Hrun. simpl in Hrun.
    destruct (createPaths_loop keys _) as [[st2 out2]|]; [|done].
    simpl in Hrun. by simplify_eq.
  - destruct (pathConfs st !! a) as [p'|]; [|by eapply IH].
    destruct (heap st !! p') as [c'|]; [|done]. simpl in Hrun.
    destruct (bool_decide (paths st !! Source c' = None)
              && bool_decide (Regexp c' = None)); [|by eapply IH].
    destruct (createPaths_loop keys _) as [[st2 out2]|]; [|done].
    simpl in Hrun. by simplify_eq.
Qed.

(** C2, at an input: the manager over the one literal path [cam1] that
    accepts a publisher.  [New] makes a Path for it and drops it: the live
    Paths are empty when [New] returns, and they are empty again after a
    reload of the same configuration, which makes and drops another. *)
Theorem New_leaves_no_live_path :
  @New Sample.lib [AuthBasic; AuthDigest] [Sample.publisher] {[ "cam1" := 0%nat ]}
  = Some ({| heap := [Sample.publisher]; authMethods := [AuthBasic; AuthDigest];
             pathConfs := {[ "cam1" := 0%nat ]}; paths := ∅; pathsMade := 1 |},
          [PathNew {| path.id := 0; path.ConfName := "cam1";
                      path.Conf := 0%nat; path.Name := "cam1" |}])
  ∧ @onConfReload Sample.lib Sample.pkg {[ "cam1" := 0%nat ]}
      {| heap := [Sample.publisher]; authMethods := [AuthBasic; AuthDigest];
         pathConfs := {[ "cam1" := 0%nat ]}; paths := ∅; pathsMade := 1 |}
    = Some ({| heap := [Sample.publisher]; authMethods := [AuthBasic; AuthDigest];
               pathConfs := {[ "cam1" := 0%nat ]}; paths := ∅; pathsMade := 2 |},
            [PathNew {| path.id := 1; path.ConfName := "cam1";
                        path.Conf := 0%nat; path.Name := "cam1" |}]).
Proof. split; vm_compute; reflexivity. Qed.

(** ** Announce *)

(** An Announce never changes the live Paths. *)
Lemma onAnnounce_paths `{ConfPkg} (req : readpublisher.Req) (st st' : State) out :
  onAnnounce req st = Some (st', out) → paths st' = paths st.
Proof.
  unfold onAnnounce. intros Hrun.
  destruct (findPathConf st _) as [[st1 [[pathName pathConf]|err]]|] eqn:Hfind;
    simpl in Hrun; [| |done].
  - destruct (findPathConf_inv _ _ _ _ Hfind) as (Hst1 & _ & _).
    destruct (heap st1 !! pathConf) as [c|]; [|done]. simpl in Hrun.
    destruct (authenticate _ _ _ _ _ _ _).
    + simplify_eq. by rewrite Hst1.
    + destruct (paths st1 !! Source c); simpl in Hrun; simplify_eq; by rewrite Hst1.
  - destruct (findPathConf_inv _ _ _ _ Hfind) as (_ & _ & ->). by simplify_eq.
Qed.

(** C1, at an input: the manager over the one literal path [cam1] that
    accepts a publisher, with no live Path, and an Announce for [cam1]
    that passes the authorisation.  A Path is made, the live Paths stay
    empty, and [OnPathManAnnounce] is called on the nil pointer the
    missing key gives. *)
Theorem Announce_calls_missing_path :
  @onAnnounce Sample.lib Sample.pkg (Sample.request "cam1" None 7)
    (Sample.manager Sample.publisher)
  = Some ({| heap := [Sample.publisher]; authMethods := [AuthBasic; AuthDigest];
             pathConfs := {[ "cam1" := 0%nat ]}; paths := ∅; pathsMade := 1 |},
          [PathNew {| path.id := 0; path.ConfName := "cam1";
                      path.Conf := 0%nat; path.Name := "cam1" |};
           OnPathManAnnounce None (Sample.request "cam1" None 7)]).
Proof. vm_compute. reflexivity. Qed.

(** Whatever the live Paths, an Announce that passes the authorisation
    calls what the lookup under the source gives in the live Paths as they
    were: nil when no Path was there. *)
Lemma onAnnounce_allowed `{ConfPkg} (req : readpublisher.Req) (st st1 : State)
    pathName pathConf c :
  findPathConf st (readpublisher.PathName req) = Some (st1, Ok (pathName, pathConf)) →
  heap st1 !! pathConf = Some c →
  authenticate (authMethods st) (readpublisher.IP req)
    (readpublisher.ValidateCredentials req) (readpublisher.PathName req)
    (PublishIPsParsed c) (PublishUser c) (PublishPass c) = None →
  ∃ st' out, onAnnounce req st = Some (st', out)
    ∧ paths st' = paths st
    ∧ forwards out = [paths st !! Source c].
Proof.
  intros Hfind Hc Hauth.
  destruct (findPathConf_inv _ _ _ _ Hfind) as (Hst1 & _ & _).
  unfold onAnnounce. rewrite Hfind. simpl. rewrite Hc. simpl.
  rewrite Hst1. simpl. rewrite Hauth.
  destruct (paths st !! Source c) as [pa|] eqn:Hpa; simpl.
  - eexists _, _. split; [done|]. simpl. by rewrite Hpa.
  - eexists _, _. split; [done|]. simpl. by rewrite Hpa.
Qed.

(** ** Reload *)

Lemma removeConfs_same (newConfs confs : gmap string ptr) (keys : list string) :
  (∀ k, k ∈ keys → is_Some (newConfs !! k)) →
  removeConfs newConfs keys confs = confs.
Proof.
  unfold removeConfs. induction keys as [|k keys IH]; intros Hkeys; [done|].
  simpl. destruct (Hkeys k) as [q ->]; [by left|].
  apply IH. intros k' Hk'. apply Hkeys. by right.
Qed.

Lemma updateConfs_same `{ConfPkg} (h : list PathConf) (newConfs confs : gmap string ptr)
    (keys : list string) :
  (∀ k p, confs !! k = Some p →
     ∃ q c d, newConfs !! k = Some q ∧ h !! p = Some c ∧ h !! q = Some d
       ∧ PathConf_Equal c d = true) →
  updateConfs h newConfs keys confs = Some confs.
Proof.
  intros Hsame. induction keys as [|k keys IH]; [done|].
  simpl. destruct (confs !! k) as [p|] eqn:Hk; [|done].
  destruct (Hsame k p Hk) as (q & c & d & -> & -> & Hd & Heq). simpl.
  rewrite Hd. simpl. by rewrite Heq.
Qed.

Lemma addConfs_same (newConfs confs : gmap string ptr) (keys : list string) :
  (∀ k, is_Some (newConfs !! k) → is_Some (confs !! k)) →
  addConfs newConfs keys confs = confs.
Proof.
  unfold addConfs. intros Hsub. induction keys as [|k keys IH]; [done|].
  simpl. destruct (newConfs !! k) as [q|] eqn:Hq; [|done].
  destruct (Hsub k) as [p ->]; [by eexists|]. done.
Qed.

(** The loop over the live Paths closes only Paths whose configuration
    is not the stored object, and keeps every Path whose configuration
    is. *)
Lemma removePaths_inv `{GoLib} (confs : gmap string ptr) (keys : list string)
    (ps ps' : gmap string path.Path) out :
  removePaths confs keys ps = (ps', out) →
  (∀ src pa, ps !! src = Some pa → conf_stored confs pa → ps' !! src = Some pa)
  ∧ (∀ pa, pa ∈ closed out → ¬ conf_stored confs pa)
  ∧ made out = [] ∧ replies out = [] ∧ forwards out = []
  ∧ length (closed out) = length out.
Proof.
  revert ps ps' out. induction keys as [|k keys IH]; intros ps ps' out Hrun.
  { simpl in Hrun. simplify_eq. split_and!; try done.
    intros pa Hin. by apply elem_of_nil in Hin. }
  simpl in Hrun. destruct (ps !! k) as [pa|] eqn:Hk; [|by apply IH].
  destruct (confs !! path.ConfName pa) as [p|] eqn:Hconf.
  - case_bool_decide as Hp; simpl in Hrun; [by apply IH|].
    destruct (removePaths confs keys (delete k ps)) as [ps2 out2] eqn:Hrest.
    simplify_eq. apply IH in Hrest as (Hkeep & Hclosed & Hm & Hr & Hf & Hlen).
    split_and!; simpl; try done; [| |by rewrite Hlen].
    + intros src pa' Hsrc Hstored. apply Hkeep; [|done].
      rewrite lookup_delete_ne; [done|]. intros <-. simplify_eq.
      unfold conf_stored in Hstored. congruence.
    + intros pa' [->|Hin]%elem_of_cons; [|by apply Hclosed].
      unfold conf_stored. congruence.
  - destruct (removePaths confs keys (delete k ps)) as [ps2 out2] eqn:Hrest.
    simplify_eq. apply IH in Hrest as (Hkeep & Hclosed & Hm & Hr & Hf & Hlen).
    split_and!; simpl; try done; [| |by rewrite Hlen].
    + intros src pa' Hsrc Hstored. apply Hkeep; [|done].
      rewrite lookup_delete_ne; [done|]. intros <-. simplify_eq.
      unfold conf_stored in Hstored. congruence.
    + intros pa' [->|Hin]%elem_of_cons; [|by apply Hclosed].
      unfold conf_stored. congruence.
Qed.

Lemma removePaths_all_stored `{GoLib} (confs : gmap string ptr) (keys : list string)
    (ps : gmap string path.Path) :
  (∀ src pa, ps !! src = Some pa → conf_stored confs pa) →
  removePaths confs keys ps = (ps, []).
Proof.
  intros Hall. induction keys as [|k keys IH]; [done|].
  simpl. destruct (ps !! k) as [pa|] eqn:Hk; [|done].
  rewrite (Hall k pa Hk). by rewrite bool_decide_eq_true_2.
Qed.

(** C8, as the code has it: a reload whose incoming map has the keys of
    the stored one and under each key an object [Equal] to the stored one
    leaves the registry as it is, keeps every live Path whose
    configuration is the object stored under its configuration name, and
    closes none of them; when every live Path is such, the live Paths are
    what they were and nothing is closed. *)
Theorem reload_same_confs_keeps_stored_paths `{ConfPkg}
    (newConfs : gmap string ptr) (st : State) :
  same_confs (heap st) newConfs (pathConfs st) →
  ∃ st' out, onConfReload newConfs st = Some (st', out)
    ∧ pathConfs st' = pathConfs st
    ∧ (∀ src pa, paths st !! src = Some pa → conf_stored (pathConfs st) pa →
         paths st' !! src = Some pa ∧ pa ∉ closed out)
    ∧ ((∀ src pa, paths st !! src = Some pa → conf_stored (pathConfs st) pa) →
         paths st' = paths st ∧ closed out = []).
Proof.
  intros [Hkeys Hequal].
  assert (confs_allocated (heap st) (pathConfs st)) as Halloc.
  { intros k p Hk. destruct (proj2 (Hkeys k)) as [q Hq]; [by eexists|].
    destruct (Hequal k p q Hk Hq) as (c & _ & Hc & _). by eexists. }
  unfold onConfReload.
  rewrite removeConfs_same; last first.
  { intros k Hk%elem_of_keys_of. by apply Hkeys. }
  rewrite updateConfs_same; last first.
  { intros k p Hk. destruct (proj2 (Hkeys k)) as [q Hq]; [by eexists|].
    destruct (Hequal k p q Hk Hq) as (c & d & Hc & Hd & Heq). by exists q, c, d. }
  simpl. rewrite addConfs_same by (intros k; apply Hkeys).
  destruct (removePaths (pathConfs st) (keys_of (paths st)) (paths st))
    as [ps out1] eqn:Hremove.
  destruct (createPaths_loop_Some (keys_of (pathConfs st))
              (set_paths (set_pathConfs st (pathConfs st)) ps))
    as [[st' out2] Hcreate]; [done|].
  unfold createPaths. simpl. rewrite Hcreate. simpl.
  apply createPaths_loop_inv in Hcreate as (Hp & Hc & _ & Hcl & _).
  simpl in Hp, Hc.
  pose proof (removePaths_inv _ _ _ _ _ Hremove) as (Hkeep & Hclosed & _).
  exists st', (out1 ++ out2). split; [done|]. split; [done|].
  assert (closed (out1 ++ out2) = closed out1) as Hout.
  { unfold closed. rewrite omap_app. fold (closed out1) (closed out2).
    by rewrite Hcl, app_nil_r. }
  rewrite Hout, Hp. split.
  - intros src pa Hsrc Hstored. split; [by apply Hkeep|].
    intros Hin. by apply (Hclosed pa).
  - intros Hall. rewrite (removePaths_all_stored _ _ _ Hall) in Hremove.
    by simplify_eq.
Qed.

Lemma same_confs_singleton `{ConfPkg} (h : list PathConf) (k : string) (p q : ptr) c d :
  h !! p = Some c → h !! q = Some d → PathConf_Equal c d = true →
  same_confs h {[ k := q ]} {[ k := p ]}.
Proof.
  intros Hc Hd Heq. split.
  - intros k'. destruct (decide (k = k')) as [<-|Hne].
    + rewrite !lookup_singleton_eq. split; by eexists.
    + rewrite !lookup_singleton_ne by done. split; by intros [? ?].
  - intros k' p' q' [<- <-]%lookup_singleton_Some [_ <-]%lookup_singleton_Some.
    by exists c, d.
Qed.

Lemma reload_same_confs_keeps_stored_paths_witness :
  ∃ st' out,
    @onConfReload Sample.lib Sample.pkg {[ "cam1" := 1%nat ]}
      {| heap := [Sample.publisher; Sample.publisher];
         authMethods := [AuthBasic; AuthDigest];
         pathConfs := {[ "cam1" := 0%nat ]};
         paths := {[ "publisher" :=
                       {| path.id := 0; path.ConfName := "cam1";
                          path.Conf := 0%nat; path.Name := "cam1" |} ]};
         pathsMade := 1 |}
    = Some (st', out)
    ∧ paths st' = {[ "publisher" :=
                       {| path.id := 0; path.ConfName := "cam1";
                          path.Conf := 0%nat; path.Name := "cam1" |} ]}
    ∧ closed out = [].
Proof.
  destruct (@reload_same_confs_keeps_stored_paths Sample.lib Sample.pkg
              {[ "cam1" := 1%nat ]}
              {| heap := [Sample.publisher; Sample.publisher];
                 authMethods := [AuthBasic; AuthDigest];
                 pathConfs := {[ "cam1" := 0%nat ]};
                 paths := {[ "publisher" :=
                               {| path.id := 0; path.ConfName := "cam1";
                                  path.Conf := 0%nat; path.Name := "cam1" |} ]};
                 pathsMade := 1 |})
    as (st' & out & Hrun & _ & _ & Hall).
  - apply (same_confs_singleton _ _ _ _ Sample.publisher Sample.publisher);
      reflexivity.
  - destruct Hall as [Hpaths Hclosed].
    + intros src pa Hsrc. simpl in Hsrc.
      apply lookup_singleton_Some in Hsrc as [_ <-]. reflexivity.
    + exists st', out. split; [exact Hrun|]. split; [exact Hpaths|exact Hclosed].
Defined.

(** C8 as it is written fails for a Path made after a redirect.  The
    callback of [cam1] redirects a Describe to rtsp://u/x, so the Path
    stored under that source has the copy, at address 1, as its
    configuration.  A reload with the very map the registry holds finds
    that the object stored under [cam1], at address 0, is not the Path's
    configuration: the Path is closed and the live Paths are empty. *)
Lemma reload_same_confs_closes_redirected_path_counterexample :
  @onDescribe Sample.lib Sample.pkg (Sample.answering 302 "rtsp://u/x")
    (Sample.request "cam1" None 7)
    (Sample.manager (Sample.with_callback Sample.publisher "http://auth/"))
  = Some ({| heap := [Sample.with_callback Sample.publisher "http://auth/";
                      set_Source (Sample.with_callback Sample.publisher "http://auth/")
                        "rtsp://u/x"];
             authMethods := [AuthBasic; AuthDigest];
             pathConfs := {[ "cam1" := 0%nat ]};
             paths := {[ "rtsp://u/x" :=
                           {| path.id := 0; path.ConfName := "cam1";
                              path.Conf := 1%nat; path.Name := "cam1" |} ]};
             pathsMade := 1 |},
          [HTTPDo (authPost "http://auth/"
                     (playPayload (Sample.request "cam1" None 7)));
           PathNew {| path.id := 0; path.ConfName := "cam1";
                      path.Conf := 1%nat; path.Name := "cam1" |};
           OnPathManDescribe
             (Some {| path.id := 0; path.ConfName := "cam1";
                      path.Conf := 1%nat; path.Name := "cam1" |})
             (Sample.request "cam1" None 7)])
  ∧ @same_confs Sample.lib Sample.pkg
      [Sample.with_callback Sample.publisher "http://auth/";
       set_Source (Sample.with_callback Sample.publisher "http://auth/") "rtsp://u/x"]
      {[ "cam1" := 0%nat ]} {[ "cam1" := 0%nat ]}
  ∧ @onConfReload Sample.lib Sample.pkg {[ "cam1" := 0%nat ]}
      {| heap := [Sample.with_callback Sample.publisher "http://auth/";
                  set_Source (Sample.with_callback Sample.publisher "http://auth/")
                    "rtsp://u/x"];
         authMethods := [AuthBasic; AuthDigest];
         pathConfs := {[ "cam1" := 0%nat ]};
         paths := {[ "rtsp://u/x" :=
                       {| path.id := 0; path.ConfName := "cam1";
                          path.Conf := 1%nat; path.Name := "cam1" |} ]};
         pathsMade := 1 |}
    = Some ({| heap := [Sample.with_callback Sample.publisher "http://auth/";
                        set_Source (Sample.with_callback Sample.publisher "http://auth/")
                          "rtsp://u/x"];
               authMethods := [AuthBasic; AuthDigest];
               pathConfs := {[ "cam1" := 0%nat ]};
               paths := ∅;
               pathsMade := 2 |},
            [PathClose {| path.id := 0; path.ConfName := "cam1";
                          path.Conf := 1%nat; path.Name := "cam1" |};
             PathNew {| path.id := 1; path.ConfName := "cam1";
                        path.Conf := 0%nat; path.Name := "cam1" |}])
  ∧ ∀ st' out,
      @onConfReload Sample.lib Sample.pkg {[ "cam1" := 0%nat ]}
        {| heap := [Sample.with_callback Sample.publisher "http://auth/";
                    set_Source (Sample.with_callback Sample.publisher "http://auth/")
                      "rtsp://u/x"];
           authMethods := [AuthBasic; AuthDigest];
           pathConfs := {[ "cam1" := 0%nat ]};
           paths := {[ "rtsp://u/x" :=
                         {| path.id := 0; path.ConfName := "cam1";
                            path.Conf := 1%nat; path.Name := "cam1" |} ]};
           pathsMade := 1 |}
      = Some (st', out) →
      closed out ≠ []
      ∧ paths st' ≠ {[ "rtsp://u/x" :=
                         {| path.id := 0; path.ConfName := "cam1";
                            path.Conf := 1%nat; path.Name := "cam1" |} ]}.
Proof.
  split; [vm_compute; reflexivity|]. split; [|split; [vm_compute; reflexivity|]].
  - apply (same_confs_singleton _ _ _ _
             (Sample.with_callback Sample.publisher "http://auth/")
             (Sample.with_callback Sample.publisher "http://auth/"));
      vm_compute; reflexivity.
  - intros st' out Hrun. vm_compute in Hrun. injection Hrun as <- <-.
    split; [discriminate|].
    intros Hpaths. apply (f_equal (lookup "rtsp://u/x")) in Hpaths.
    vm_compute in Hpaths. discriminate.
Qed.

(** * Further properties of the code *)

(** ** [ipEqualOrInRange] and [authenticate] *)

Lemma ipEqualOrInRange_app `{GoLib} (ip : net_IP) (l1 l2 : list IPItem) :
  ipEqualOrInRange ip (l1 ++ l2) = ipEqualOrInRange ip l1 || ipEqualOrInRange ip l2.
Proof.
  induction l1 as [|item l1 IH]; [done|]. simpl.
  destruct item as [a|n|]; [destruct (IP_Equal a ip)|destruct (IPNet_Contains n ip)|];
    done.
Qed.

(** X1: [ipEqualOrInRange] answers true exactly when some element of the
    list is an address equal to [ip] or a network that contains it;
    elements of another type never count, the empty list gives false, and
    the order of the list does not matter. *)
Theorem ipEqualOrInRange_exactly_listed `{GoLib} (ip : net_IP) (ips : list IPItem) :
  (ipEqualOrInRange ip ips = true ↔ listed ip ips)
  ∧ ipEqualOrInRange ip [] = false
  ∧ ipEqualOrInRange ip (filter (λ item, is_address_item item = true) ips)
    = ipEqualOrInRange ip ips
  ∧ (∀ ips', ips ≡ₚ ips' → ipEqualOrInRange ip ips' = ipEqualOrInRange ip ips).
Proof.
  split; [apply ipEqualOrInRange_listed|]. split; [done|]. split.
  - induction ips as [|item ips IH]; [done|].
    destruct item as [a|n|].
    + rewrite filter_cons_True by done. simpl. by rewrite IH.
    + rewrite filter_cons_True by done. simpl. by rewrite IH.
    + rewrite filter_cons_False by done. done.
  - intros ips' Hperm.
    destruct (ipEqualOrInRange ip ips) eqn:Hin.
    + apply ipEqualOrInRange_listed. apply ipEqualOrInRange_listed in Hin.
      destruct Hin as (item & Hitem & Hok). exists item. by rewrite <- Hperm.
    + destruct (ipEqualOrInRange ip ips') eqn:Hin'; [|done].
      apply ipEqualOrInRange_listed in Hin' as (item & Hitem & Hok).
      rewrite <- Hin. symmetry. apply ipEqualOrInRange_listed.
      exists item. by rewrite Hperm.
Qed.

(** X2: [authenticate] returns no error exactly when the address is let
    through (no list, a nil address, or a listed address) and the
    credential check passes; and an error it returns is either the 401
    for the address or the very error of the credential validator. *)
Theorem authenticate_passes_iff `{GoLib} (am : list AuthMethod) (ip : net_IP)
    (vc : option CredentialValidator) (name : string)
    (pathIPs : option (list IPItem)) (user pass : string) :
  (authenticate am ip vc name pathIPs user pass = None
   ↔ ip_gate_open ip pathIPs ∧ credentialCheck am vc user pass = None)
  ∧ (∀ err, authenticate am ip vc name pathIPs user pass = Some err →
       (¬ ip_gate_open ip pathIPs ∧ err = ip_not_allowed ip)
       ∨ (ip_gate_open ip pathIPs ∧ credentialCheck am vc user pass = Some err)).
Proof.
  unfold authenticate, ip_gate_open, ip_not_allowed.
  fold (credentialCheck am vc user pass).
  destruct pathIPs as [ips|]; simpl; last first.
  { split; [split; [done|by intros [_ ?]]|]. intros err Herr. by right. }
  destruct (IP_isNil ip) eqn:Hnil; simpl.
  { split; [split; [intros ?; split; [by left|done]|by intros [_ ?]]|].
    intros err Herr. right. split; [by left|done]. }
  destruct (ipEqualOrInRange ip ips) eqn:Hin; simpl.
  - apply ipEqualOrInRange_listed in Hin.
    split; [split; [intros ?; split; [by right|done]|by intros [_ ?]]|].
    intros err Herr. right. split; [by right|done].
  - assert (¬ listed ip ips) as Hnot.
    { intros Hl%ipEqualOrInRange_listed. congruence. }
    split.
    + split; [done|]. intros [[?|?] _]; [done|by destruct Hnot].
    + intros err [= <-]. left. split; [|done]. intros [?|?]; [done|by destruct Hnot].
Qed.

(** X3: a list of addresses that is not nil but empty lets no present
    address through, and an address that is refused is refused before the
    credentials are looked at: the result does not depend on the
    validator, the user or the password. *)
Theorem authenticate_address_first `{GoLib} (am : list AuthMethod) (ip : net_IP)
    (name : string) (ips : list IPItem) :
  IP_isNil ip = false →
  (∀ vc user pass,
     authenticate am ip vc name (Some []) user pass = Some (ip_not_allowed ip))
  ∧ (¬ listed ip ips →
     ∀ vc user pass,
       authenticate am ip vc name (Some ips) user pass = Some (ip_not_allowed ip)).
Proof.
  intros Hnil. split.
  - intros vc user pass. unfold authenticate. by rewrite Hnil.
  - intros Hnot vc user pass. by apply authenticate_rejects.
Qed.

Lemma authenticate_address_first_witness :
  authenticate [AuthBasic] (Some [192; 168; 1; 5] : @net_IP Sample.lib)
    (Some (λ _ _ _, None)) "cam1" (Some []) "user" "pass"
  = Some (ErrAuthCritical "IP '192.168.1.5' not allowed" 401).
Proof.
  destruct (authenticate_address_first [AuthBasic]
              (Some [192; 168; 1; 5] : @net_IP Sample.lib) "cam1" [])
    as [Hempty _].
  - reflexivity.
  - apply Hempty.
Defined.

(** ** [DoAuthRequest] *)

(** X4: an action [DoAuthRequest] returns never both closes and
    redirects: a denial has no target.  Without a callback the action
    allows and no request is sent; otherwise exactly the post to the
    callback is sent, whatever comes back. *)
Theorem DoAuthRequest_action_shape `{GoLib} (net : Network) (pathConf : PathConf)
    (p : PlayRequestPayload) (r : result PlayRequestAction)
    (sent : list HTTPRequest) :
  DoAuthRequest net pathConf p = (r, sent) →
  (∀ a, r = Ok a → Close a = false ∨ Target a = "")
  ∧ (HTTPCallback pathConf = "" →
       r = Ok {| Close := false; Target := "" |} ∧ sent = [])
  ∧ (HTTPCallback pathConf ≠ "" → sent = [authPost (HTTPCallback pathConf) p]).
Proof.
  intros Hdo. split; [|split].
  - intros a ->. revert Hdo. unfold DoAuthRequest, Client_Post.
    rewrite Client_do_last_response.
    case_bool_decide; [intros [= <- _]; by left|].
    destruct (net _) as [resp|e]; simpl; [|done].
    repeat case_match; intros [= <- _]; simpl; auto.
  - intros Hcb. rewrite DoAuthRequest_no_callback in Hdo by done. by simplify_eq.
  - intros Hcb. revert Hdo. unfold DoAuthRequest, Client_Post.
    rewrite Client_do_last_response, bool_decide_eq_false_2 by done.
    destruct (net _) as [resp|e]; simpl; repeat case_match; by intros [= _ <-].
Qed.

Lemma DoAuthRequest_action_shape_witness :
  Close {| Close := true; Target := "" |} = false
  ∨ Target {| Close := true; Target := "" |} = "".
Proof.
  destruct (DoAuthRequest_action_shape (Sample.answering 403 "")
              (Sample.with_callback Sample.publisher "http://auth/")
              (playPayload (Sample.request "cam1" None 7))
              (Ok {| Close := true; Target := "" |})
              [authPost "http://auth/" (playPayload (Sample.request "cam1" None 7))])
    as (Hshape & _).
  - reflexivity.
  - by apply Hshape.
Defined.

(** X5: when the exchange with the callback fails, [DoAuthRequest]
    fails with the error of the exchange, unchanged. *)
Theorem DoAuthRequest_transport_error `{GoLib} (net : Network) (pathConf : PathConf)
    (p : PlayRequestPayload) (err : error) :
  HTTPCallback pathConf ≠ "" →
  net (authPost (HTTPCallback pathConf) p) = Err err →
  DoAuthRequest net pathConf p = (Err err, [authPost (HTTPCallback pathConf) p]).
Proof.
  intros Hcb Hnet. unfold DoAuthRequest, Client_Post.
  rewrite Client_do_last_response, bool_decide_eq_false_2 by done.
  fold (authPost (HTTPCallback pathConf) p). by rewrite Hnet.
Qed.

Lemma DoAuthRequest_transport_error_witness :
  DoAuthRequest (λ _, Err (ErrExternal "connection refused"))
    (Sample.with_callback Sample.publisher "http://auth/")
    (playPayload (Sample.request "cam1" None 7))
  = (Err (ErrExternal "connection refused"),
     [authPost "http://auth/" (playPayload (Sample.request "cam1" None 7))]).
Proof.
  apply (DoAuthRequest_transport_error (λ _, Err (ErrExternal "connection refused"))
           (Sample.with_callback Sample.publisher "http://auth/")).
  - simpl. discriminate.
  - reflexivity.
Defined.

(** ** What [findPathConf] returns *)

Lemma findPathConf_loop_Some_inv `{GoLib} (h : list PathConf) confs name keys k p :
  findPathConf_loop h confs name keys = Some (Some (k, p)) →
  ∃ l1 l2, keys = l1 ++ k :: l2 ∧ confs !! k = Some p
    ∧ regexp_matches h confs name k
    ∧ ∀ k', k' ∈ l1 → ¬ regexp_matches h confs name k'.
Proof.
  induction keys as [|a keys IH]; intros Hloop; [done|]. simpl in Hloop.
  assert (findPathConf_loop h confs name keys = Some (Some (k, p)) →
          ¬ regexp_matches h confs name a →
          ∃ l1 l2, a :: keys = l1 ++ k :: l2 ∧ confs !! k = Some p
            ∧ regexp_matches h confs name k
            ∧ ∀ k', k' ∈ l1 → ¬ regexp_matches h confs name k') as Hnext.
  { intros Hrest Ha. destruct (IH Hrest) as (l1 & l2 & -> & Hk & Hm & Hfirst).
    exists (a :: l1), l2. split; [done|]. split; [done|]. split; [done|].
    intros k' [->|Hk']%elem_of_cons; [done|]. by apply Hfirst. }
  destruct (confs !! a) as [q|] eqn:Ha.
  - destruct (h !! q) as [c|] eqn:Hc; [|done]. simpl in Hloop.
    destruct (Regexp c) as [re|] eqn:Hre.
    + destruct (Regexp_MatchString re name) eqn:Hm.
      * simplify_eq. exists [], keys. split; [done|]. split; [done|].
        split; [by exists p, c, re|]. intros k' Hk'. by apply elem_of_nil in Hk'.
      * apply Hnext; [done|]. intros (q' & c' & re' & ? & ? & ? & ?). congruence.
    + apply Hnext; [done|]. intros (q' & c' & re' & ? & ? & ? & ?). congruence.
  - apply Hnext; [done|]. intros (q' & c' & re' & ? & ? & ? & ?). congruence.
Qed.

Lemma findPathConf_loop_None_inv `{GoLib} (h : list PathConf) confs name keys :
  findPathConf_loop h confs name keys = Some None →
  ∀ k, k ∈ keys → ¬ regexp_matches h confs name k.
Proof.
  induction keys as [|a keys IH]; intros Hloop k Hk; [by apply elem_of_nil in Hk|].
  simpl in Hloop.
  assert (findPathConf_loop h confs name keys = Some None →
          ¬ regexp_matches h confs name a →
          ¬ regexp_matches h confs name k) as Hnext.
  { intros Hrest Ha. apply elem_of_cons in Hk as [->|Hk]; [done|]. by apply IH. }
  destruct (confs !! a) as [q|] eqn:Ha.
  - destruct (h !! q) as [c|] eqn:Hc; [|done]. simpl in Hloop.
    destruct (Regexp c) as [re|] eqn:Hre.
    + destruct (Regexp_MatchString re name) eqn:Hm; [done|].
      apply Hnext; [done|]. intros (q' & c' & re' & ? & ? & ? & ?). congruence.
    + apply Hnext; [done|]. intros (q' & c' & re' & ? & ? & ? & ?). congruence.
  - apply Hnext; [done|]. intros (q' & c' & re' & ? & ? & ? & ?). congruence.
Qed.

(** A name that resolves resolves to a key of the registry. *)
Lemma findPathConf_Ok_key `{ConfPkg} (st st1 : State) name k inst :
  findPathConf st name = Some (st1, Ok (k, inst)) →
  ∃ p c, pathConfs st !! k = Some p ∧ heap st !! p = Some c
    ∧ heap st1 !! inst = Some (instance_of c name)
    ∧ (k = name ∨ (pathConfs st !! name = None
                    ∧ regexp_matches (heap st) (pathConfs st) name k)).
Proof.
  unfold findPathConf. intros Hfind.
  destruct (CheckPathName name) as [e|]; [done|].
  destruct (pathConfs st !! name) as [p|] eqn:Hname.
  - destruct (GetInstance (heap st) p name) as [[h q]|] eqn:Hget; [|done].
    simpl in Hfind. simplify_eq.
    apply GetInstance_inv in Hget as (_ & c & Hc & Hq).
    exists p, c. split_and!; try done. by left.
  - destruct (findPathConf_loop _ _ _ _) as [[[k' p]|]|] eqn:Hloop;
      simpl in Hfind; [|done|done].
    destruct (GetInstance (heap st) p name) as [[h q]|] eqn:Hget; [|done].
    simpl in Hfind. simplify_eq.
    apply GetInstance_inv in Hget as (_ & c & Hc & Hq).
    apply findPathConf_loop_Some_inv in Hloop as (l1 & l2 & _ & Hk & Hm & _).
    exists p, c. split_and!; try done. by right.
Qed.

(** X6: [findPathConf] returns only what the registry holds: a name that
    resolves passed the check of names and resolves to a key of the
    registry, which is the name itself or, when the name is no key, a key
    whose entry is a regular expression that matches the name; what is
    returned points to the instance of that entry.  An error is one of
    two: the name is invalid, or it is valid, no key, and matched by no
    entry; the manager is then as it was. *)
Theorem findPathConf_sound `{ConfPkg} (st st1 : State) (name : string)
    (r : result (string * ptr)) :
  findPathConf st name = Some (st1, r) →
  match r with
  | Ok (k, inst) =>
      CheckPathName name = None
      ∧ ∃ p c, pathConfs st !! k = Some p ∧ heap st !! p = Some c
          ∧ heap st1 !! inst = Some (instance_of c name)
          ∧ (k = name ∨ (pathConfs st !! name = None
                          ∧ regexp_matches (heap st) (pathConfs st) name k))
  | Err e =>
      st1 = st
      ∧ ((∃ msg, CheckPathName name = Some msg
            ∧ e = Errorf ("invalid path name: " +:+ msg +:+ " (" +:+ name +:+ ")"))
         ∨ (CheckPathName name = None ∧ pathConfs st !! name = None
            ∧ (∀ k, ¬ regexp_matches (heap st) (pathConfs st) name k)
            ∧ e = Errorf ("unable to find a valid configuration for path '"
                            +:+ name +:+ "'")))
  end.
Proof.
  intros Hfind. destruct r as [[k inst]|e].
  - split; [|by eapply findPathConf_Ok_key].
    unfold findPathConf in Hfind. by destruct (CheckPathName name).
  - destruct (findPathConf_inv _ _ _ _ Hfind) as (_ & _ & Hst). split; [done|].
    unfold findPathConf in Hfind.
    destruct (CheckPathName name) as [msg|].
    { left. exists msg. split; [done|]. by simplify_eq. }
    right. split; [done|].
    destruct (pathConfs st !! name) as [p|] eqn:Hname.
    { destruct (GetInstance (heap st) p name) as [[h q]|]; simpl in Hfind; done. }
    split; [done|].
    destruct (findPathConf_loop _ _ _ _) as [[[k' p]|]|] eqn:Hloop;
      simpl in Hfind; [|simplify_eq|done].
    { destruct (GetInstance (heap st) p name) as [[h q]|]; simpl in Hfind; done. }
    split; [|done]. intros k Hk.
    apply (findPathConf_loop_None_inv _ _ _ _ Hloop k); [|done].
    apply elem_of_keys_of. destruct Hk as (p & _ & _ & Hp & _). by exists p.
Qed.

Lemma findPathConf_sound_witness :
  CheckPathName (ConfPkg := Sample.pkg) "live/a" = None
  ∧ ∃ p c, ({[ "cam1" := 0%nat; "~^live/" := 1%nat ]} : gmap string ptr) !! "~^live/"
             = Some p
      ∧ [Sample.publisher; Sample.with_regexp Sample.publisher "live/"] !! p = Some c.
Proof.
  pose proof (@findPathConf_sound Sample.lib Sample.pkg
                {| heap := [Sample.publisher; Sample.with_regexp Sample.publisher "live/"];
                   authMethods := [];
                   pathConfs := {[ "cam1" := 0%nat; "~^live/" := 1%nat ]};
                   paths := ∅; pathsMade := 0 |}
                {| heap := [Sample.publisher; Sample.with_regexp Sample.publisher "live/";
                            Sample.with_regexp Sample.publisher "live/"];
                   authMethods := [];
                   pathConfs := {[ "cam1" := 0%nat; "~^live/" := 1%nat ]};
                   paths := ∅; pathsMade := 0 |}
                "live/a" (Ok ("~^live/", 2%nat))) as Hsound.
  destruct Hsound as (Hvalid & p & c & Hp & Hc & _).
  - vm_compute. reflexivity.
  - split; [exact Hvalid|]. exists p, c. split; [exact Hp|exact Hc].
Defined.

(** ** The outcomes of a request *)

(** What a Describe or a SetupPlay that was handled has done: it has
    answered with an error, or called the Path that was live under the
    source, or made a Path, stored it under the source and called it. *)
Lemma onPlay_inv `{ConfPkg} fwd net req (st st' : State) out :
  onPlay fwd net req st = Some (st', out) →
  (∃ h sent err, heap st `prefix_of` h ∧ st' = set_heap st h
     ∧ out = (HTTPDo <$> sent) ++ [Reply (readpublisher.Res req) err])
  ∨ (∃ h sent pathName p2 c2,
       heap st `prefix_of` h ∧ h !! p2 = Some c2
       ∧ is_Some (pathConfs st !! pathName)
       ∧ ((∃ pa, paths st !! Source c2 = Some pa ∧ st' = set_heap st h
             ∧ out = (HTTPDo <$> sent) ++ [fwd (Some pa) req])
          ∨ (paths st !! Source c2 = None
             ∧ st' = {| heap := h; authMethods := authMethods st;
                        pathConfs := pathConfs st;
                        paths := <[Source c2 :=
                                     {| path.id := pathsMade st;
                                        path.ConfName := pathName; path.Conf := p2;
                                        path.Name := readpublisher.PathName req |}]>
                                   (paths st);
                        pathsMade := S (pathsMade st) |}
             ∧ out = (HTTPDo <$> sent)
                       ++ [PathNew {| path.id := pathsMade st;
                                      path.ConfName := pathName; path.Conf := p2;
                                      path.Name := readpublisher.PathName req |};
                           fwd (Some {| path.id := pathsMade st;
                                        path.ConfName := pathName; path.Conf := p2;
                                        path.Name := readpublisher.PathName req |})
                             req]))).
Proof.
  intros Hrun.
  destruct (findPathConf st (readpublisher.PathName req))
    as [[st1 [[pathName p]|err]]|] eqn:Hfind;
    [|destruct (findPathConf_inv _ _ _ _ Hfind) as (_ & _ & Hst); subst st1;
      unfold onPlay in Hrun; rewrite Hfind in Hrun; simpl in Hrun; simplify_eq;
      left; exists (heap st'), [], err; by rewrite set_heap_id
     |unfold onPlay in Hrun; by rewrite Hfind in Hrun].
  destruct (findPathConf_inv _ _ _ _ Hfind) as (Hst1 & Hpre & [c Hc]).
  destruct (findPathConf_Ok_key _ _ _ _ _ Hfind) as (p0 & c0 & Hkey & _).
  destruct (DoAuthRequest net c (playPayload req)) as [[action|err] sent] eqn:Hdo;
    last first.
  { unfold onPlay in Hrun. rewrite Hfind in Hrun. simpl in Hrun.
    rewrite Hc in Hrun. simpl in Hrun.
    unfold playPayload in Hdo. rewrite Hdo in Hrun. injection Hrun as <- <-.
    left. by exists (heap st1), sent, err. }
  destruct (Close action) eqn:Hclose.
  { unfold onPlay in Hrun. rewrite Hfind in Hrun. simpl in Hrun.
    rewrite Hc in Hrun. simpl in Hrun.
    unfold playPayload in Hdo. rewrite Hdo, Hclose in Hrun.
    injection Hrun as <- <-.
    left. by exists (heap st1), sent, (Errorf "not allowed"). }
  rewrite (onPlay_allowed _ _ _ _ _ _ _ _ _ _ Hfind Hc Hdo Hclose) in Hrun.
  simpl in Hrun.
  assert (heap st `prefix_of` redirect_heap (heap st1) c (Target action)) as Hpre2.
  { unfold redirect_heap. case_bool_decide; [|done].
    etrans; [done|]. by apply prefix_app_r. }
  assert (redirect_heap (heap st1) c (Target action)
            !! redirect_ptr (heap st1) p (Target action)
          = Some (redirect_conf c (Target action))) as Hc2.
  { unfold redirect_heap, redirect_ptr, redirect_conf. case_bool_decide; [|done].
    by rewrite lookup_app_r, Nat.sub_diag. }
  destruct (authenticate _ _ _ _ _ _ _) as [err|].
  { injection Hrun as <- <-. left. by eexists _, sent, err. }
  right. eexists _, sent, pathName, _, _. split; [done|]. split; [done|].
  split; [by eexists|].
  destruct (paths st !! Source (redirect_conf c (Target action))) as [pa|] eqn:Hpa;
    injection Hrun as <- <-.
  - left. by exists pa.
  - by right.
Qed.

(** What an Announce that was handled has done: it has answered with an
    error, or called what was under the source in the live Paths, after
    making a Path it did not store when nothing was there. *)
Lemma onAnnounce_inv `{ConfPkg} req (st st' : State) out :
  onAnnounce req st = Some (st', out) →
  (∃ h err, heap st `prefix_of` h ∧ st' = set_heap st h
     ∧ out = [Reply (readpublisher.Res req) err])
  ∨ (∃ h pathName p c,
       heap st `prefix_of` h ∧ h !! p = Some c
       ∧ ((∃ pa, paths st !! Source c = Some pa ∧ st' = set_heap st h
             ∧ out = [OnPathManAnnounce (Some pa) req])
          ∨ (paths st !! Source c = None
             ∧ st' = {| heap := h; authMethods := authMethods st;
                        pathConfs := pathConfs st; paths := paths st;
                        pathsMade := S (pathsMade st) |}
             ∧ out = [PathNew {| path.id := pathsMade st;
                                 path.ConfName := pathName; path.Conf := p;
                                 path.Name := readpublisher.PathName req |};
                      OnPathManAnnounce None req]))).
Proof.
  unfold onAnnounce. intros Hrun.
  destruct (findPathConf st (readpublisher.PathName req))
    as [[st1 [[pathName p]|err]]|] eqn:Hfind; simpl in Hrun; [| |done].
  - destruct (findPathConf_inv _ _ _ _ Hfind) as (Hst1 & Hpre & [c Hc]).
    rewrite Hc in Hrun. simpl in Hrun. rewrite Hst1 in Hrun. simpl in Hrun.
    destruct (authenticate _ _ _ _ _ _ _) as [err|].
    { injection Hrun as <- <-. left. by exists (heap st1), err. }
    right. exists (heap st1), pathName, p, c. split; [done|]. split; [done|].
    destruct (paths st !! Source c) as [pa|] eqn:Hpa; simpl in Hrun.
    + rewrite Hpa in Hrun. injection Hrun as <- <-. left. by exists pa.
    + rewrite Hpa in Hrun. injection Hrun as <- <-. by right.
  - destruct (findPathConf_inv _ _ _ _ Hfind) as (_ & _ & Hst). subst st1.
    simplify_eq. left. exists (heap st'), err. by rewrite set_heap_id.
Qed.

Lemma effects_HTTPDo_app `{GoLib} (sent : list HTTPRequest) (rest : list Effect) :
  replies ((HTTPDo <$> sent) ++ rest) = replies rest
  ∧ made ((HTTPDo <$> sent) ++ rest) = made rest
  ∧ closed ((HTTPDo <$> sent) ++ rest) = closed rest
  ∧ forwards ((HTTPDo <$> sent) ++ rest) = forwards rest.
Proof.
  unfold replies, made, closed, forwards. rewrite !omap_app.
  fold (replies (HTTPDo <$> sent)) (made (HTTPDo <$> sent))
    (closed (HTTPDo <$> sent)) (forwards (HTTPDo <$> sent)).
  by rewrite replies_HTTPDo, made_HTTPDo, closed_HTTPDo, forwards_HTTPDo.
Qed.

(** X7: a Describe or a SetupPlay never calls a nil Path and never
    drops a Path it makes: the Path it calls is live, stored under a key
    of the live Paths when the case ends, and so is every Path it makes;
    it makes at most one, and closes none. *)
Theorem play_calls_live_path `{ConfPkg}
    (handler : Network → readpublisher.Req → State → option (State * list Effect))
    (net : Network) (req : readpublisher.Req) (st st' : State) (out : list Effect) :
  handler = onDescribe ∨ handler = onSetupPlay →
  handler net req st = Some (st', out) →
  (∀ target, target ∈ forwards out →
     ∃ pa src, target = Some pa ∧ paths st' !! src = Some pa)
  ∧ (∀ pa, pa ∈ made out →
       Some pa ∈ forwards out ∧ ∃ src, paths st' !! src = Some pa)
  ∧ (length (made out) ≤ 1)%nat
  ∧ closed out = [].
Proof.
  intros Hhandler Hrun.
  assert (∃ fwd, (∀ pa r, forwards [fwd pa r] = [pa])
                 ∧ (∀ pa r, made [fwd pa r] = [])
                 ∧ (∀ pa r, closed [fwd pa r] = [])
                 ∧ onPlay fwd net req st = Some (st', out)) as (fwd & Hf & Hm & Hc & Hplay).
  { destruct Hhandler as [->| ->].
    - by exists OnPathManDescribe.
    - by exists OnPathManSetupPlay. }
  apply onPlay_inv in Hplay
    as [(h & sent & err & _ & -> & ->)
       |(h & sent & pathName & p2 & c2 & _ & _ & _
         & [(pa & Hpa & -> & ->)|(Hpa & -> & ->)])];
    destruct (effects_HTTPDo_app sent [Reply (readpublisher.Res req) err])
      as (_ & Hm1 & Hc1 & Hf1) || idtac.
  - rewrite Hm1, Hc1, Hf1. simpl. split_and!; try done.
    + intros target Hin. by apply elem_of_nil in Hin.
    + intros pa Hin. by apply elem_of_nil in Hin.
    + lia.
  - destruct (effects_HTTPDo_app sent [fwd (Some pa) req]) as (_ & -> & -> & ->).
    rewrite Hf, Hm, Hc. simpl. split_and!; try done.
    + intros target ->%list_elem_of_singleton. by exists pa, (Source c2).
    + intros pa' Hin. by apply elem_of_nil in Hin.
    + lia.
  - match goal with
    | |- context [PathNew ?x] => set (pa := x)
    end.
    destruct (effects_HTTPDo_app sent [PathNew pa; fwd (Some pa) req])
      as (_ & -> & -> & ->).
    assert (forwards [PathNew pa; fwd (Some pa) req] = [Some pa]) as ->.
    { change (forwards [fwd (Some pa) req] = [Some pa]). apply Hf. }
    assert (made [PathNew pa; fwd (Some pa) req] = [pa]) as ->.
    { change (pa :: made [fwd (Some pa) req] = [pa]). by rewrite Hm. }
    assert (closed [PathNew pa; fwd (Some pa) req] = []) as ->.
    { change (closed [fwd (Some pa) req] = []). apply Hc. }
    simpl. split_and!; try done.
    + intros target ->%list_elem_of_singleton. exists pa, (Source c2).
      split; [done|]. by rewrite lookup_insert_eq.
    + intros pa' ->%list_elem_of_singleton. split; [by left|].
      exists (Source c2). by rewrite lookup_insert_eq.
Qed.

Lemma play_calls_live_path_witness :
  ∃ pa src,
    Some {| path.id := 0; path.ConfName := "cam1"; path.Conf := 0%nat;
            path.Name := "cam1" |} = Some pa
    ∧ ({[ "publisher" := {| path.id := 0; path.ConfName := "cam1";
                            path.Conf := 0%nat; path.Name := "cam1" |} ]}
         : gmap string path.Path) !! src = Some pa.
Proof.
  destruct (@play_calls_live_path Sample.lib Sample.pkg
              (@onSetupPlay Sample.lib Sample.pkg) (Sample.answering 200 "")
              (Sample.request "cam1" None 7) (Sample.manager Sample.publisher)
              {| heap := [Sample.publisher]; authMethods := [AuthBasic; AuthDigest];
                 pathConfs := {[ "cam1" := 0%nat ]};
                 paths := {[ "publisher" :=
                               {| path.id := 0; path.ConfName := "cam1";
                                  path.Conf := 0%nat; path.Name := "cam1" |} ]};
                 pathsMade := 1 |}
              [PathNew {| path.id := 0; path.ConfName := "cam1";
                          path.Conf := 0%nat; path.Name := "cam1" |};
               OnPathManSetupPlay
                 (Some {| path.id := 0; path.ConfName := "cam1";
                          path.Conf := 0%nat; path.Name := "cam1" |})
                 (Sample.request "cam1" None 7)]) as (Hlive & _).
  - by right.
  - vm_compute. reflexivity.
  - apply Hlive. vm_compute. left.
Defined.



(** X9: an Announce that fails in the resolution of its name or in the
    authorisation, which reads the publish gates of the configuration, is
    answered by one reply with the error and nothing else happens.  No
    Announce sends an HTTP request, with or without a callback in the
    configuration, and none changes the live Paths or the registry. *)
Theorem announce_failure_refused `{ConfPkg} (req : readpublisher.Req) (st : State) :
  (∀ st1 err,
     findPathConf st (readpublisher.PathName req) = Some (st1, Err err) →
     refused (onAnnounce req st) st (readpublisher.Res req) err)
  ∧ (∀ st1 pathName pathConf c err,
       findPathConf st (readpublisher.PathName req)
         = Some (st1, Ok (pathName, pathConf)) →
       heap st1 !! pathConf = Some c →
       authenticate (authMethods st) (readpublisher.IP req)
         (readpublisher.ValidateCredentials req) (readpublisher.PathName req)
         (PublishIPsParsed c) (PublishUser c) (PublishPass c) = Some err →
       refused (onAnnounce req st) st (readpublisher.Res req) err)
  ∧ (∀ st' out, onAnnounce req st = Some (st', out) →
       posts out = [] ∧ paths st' = paths st ∧ pathConfs st' = pathConfs st).
Proof.
  split; [|split].
  - intros st1 err Hfind.
    destruct (findPathConf_inv _ _ _ _ Hfind) as (_ & _ & Hst). subst st1.
    unfold onAnnounce. rewrite Hfind. simpl.
    rewrite <- (set_heap_id st) at 1. apply (refused_reply st (heap st) []).
  - intros st1 pathName pathConf c err Hfind Hc Hauth.
    destruct (findPathConf_inv _ _ _ _ Hfind) as (Hst1 & _ & _).
    unfold onAnnounce. rewrite Hfind. simpl. rewrite Hc. simpl.
    rewrite Hst1. simpl. rewrite Hauth. apply (refused_reply st _ []).
  - intros st' out Hrun.
    apply onAnnounce_inv in Hrun
      as [(h & err & _ & -> & ->)
         |(h & pathName & p & c & _ & _ & [(pa & _ & -> & ->)|(_ & -> & ->)])];
      done.
Qed.

Lemma announce_failure_refused_witness :
  refused
    (@onAnnounce Sample.lib Sample.pkg (Sample.request "cam2" None 7)
       (Sample.manager Sample.publisher))
    (Sample.manager Sample.publisher) 7
    (Errorf "unable to find a valid configuration for path 'cam2'").
Proof.
  apply (proj1 (@announce_failure_refused Sample.lib Sample.pkg
                  (Sample.request "cam2" None 7) (Sample.manager Sample.publisher))
           (Sample.manager Sample.publisher)).
  vm_compute. reflexivity.
Defined.



(** ** [case pa := <-pm.pathClose] *)

(** X11: a close request of a Path whose configuration is on the heap is
    always handled.  It touches at most the key that is the source of the
    Path's configuration: when the Path stored there is the Path of the
    request, it is removed and closed, once; when another Path or none is
    stored there, nothing changes and nothing is closed.  A second request
    for the same Path does nothing. *)
Theorem pathClose_guarded `{GoLib} (pa : path.Path) (st : State) (c : PathConf) :
  heap st !! path.Conf pa = Some c →
  ∃ st' out, onPathClose pa st = Some (st', out)
    ∧ heap st' = heap st ∧ pathConfs st' = pathConfs st
    ∧ pathsMade st' = pathsMade st
    ∧ (∀ k, k ≠ Source c → paths st' !! k = paths st !! k)
    ∧ ((∃ pmpa, paths st !! Source c = Some pmpa ∧ path.id pmpa = path.id pa) →
         paths st' !! Source c = None ∧ out = [PathClose pa])
    ∧ ((∀ pmpa, paths st !! Source c = Some pmpa → path.id pmpa ≠ path.id pa) →
         st' = st ∧ out = [])
    ∧ onPathClose pa st' = Some (st', []).
Proof.
  intros Hc. unfold onPathClose. rewrite Hc. simpl.
  destruct (paths st !! Source c) as [pmpa|] eqn:Hpa.
  - destruct (path.id pmpa =? path.id pa)%nat eqn:Hid; simpl.
    + apply Nat.eqb_eq in Hid.
      eexists _, _. split; [done|]. simpl. split_and!; try done.
      * intros k Hk. by rewrite lookup_delete_ne.
      * intros _. by rewrite lookup_delete_eq.
      * intros Hne. by destruct (Hne pmpa).
      * rewrite Hc. simpl. by rewrite lookup_delete_eq.
    + apply Nat.eqb_neq in Hid.
      eexists _, _. split; [done|]. split_and!; try done.
      * intros (pmpa' & Hpa' & Hid'). congruence.
      * rewrite Hc. simpl. rewrite Hpa.
        apply Nat.eqb_neq in Hid. by rewrite Hid.
  - eexists _, _. split; [done|]. split_and!; try done.
    + by intros (pmpa' & Hpa' & _).
    + rewrite Hc. simpl. by rewrite Hpa.
Qed.

Lemma pathClose_guarded_witness :
  ∃ st' out,
    @onPathClose Sample.lib
      {| path.id := 3; path.ConfName := "cam1"; path.Conf := 0%nat;
         path.Name := "cam1" |}
      {| heap := [Sample.publisher]; authMethods := [];
         pathConfs := {[ "cam1" := 0%nat ]};
         paths := {[ "publisher" :=
                       {| path.id := 5; path.ConfName := "cam1";
                          path.Conf := 0%nat; path.Name := "cam1" |} ]};
         pathsMade := 6 |}
    = Some (st', out)
    ∧ heap st' = [Sample.publisher].
Proof.
  destruct (@pathClose_guarded Sample.lib
              {| path.id := 3; path.ConfName := "cam1"; path.Conf := 0%nat;
                 path.Name := "cam1" |}
              {| heap := [Sample.publisher]; authMethods := [];
                 pathConfs := {[ "cam1" := 0%nat ]};
                 paths := {[ "publisher" :=
                               {| path.id := 5; path.ConfName := "cam1";
                                  path.Conf := 0%nat; path.Name := "cam1" |} ]};
                 pathsMade := 6 |}
              Sample.publisher) as (st' & out & Hrun & Hheap & _).
  - reflexivity.
  - exists st', out. split; [exact Hrun|exact Hheap].
Defined.

(** X12: the Path a Describe or a SetupPlay makes can be closed again:
    the close request of that Path is handled right after, removes it and
    closes it, and the live Paths are then what they were before the
    request. *)
Theorem play_then_close_restores `{ConfPkg}
    (handler : Network → readpublisher.Req → State → option (State * list Effect))
    (net : Network) (req : readpublisher.Req) (st st' : State) (out : list Effect)
    (pa : path.Path) :
  handler = onDescribe ∨ handler = onSetupPlay →
  handler net req st = Some (st', out) →
  pa ∈ made out →
  ∃ st'', onPathClose pa st' = Some (st'', [PathClose pa])
    ∧ paths st'' = paths st ∧ pathConfs st'' = pathConfs st.
Proof.
  intros Hhandler Hrun Hmade.
  assert (∃ fwd, (∀ t r, made [fwd t r] = [])
                 ∧ onPlay fwd net req st = Some (st', out)) as (fwd & Hm & Hplay).
  { destruct Hhandler as [->| ->].
    - by exists OnPathManDescribe.
    - by exists OnPathManSetupPlay. }
  apply onPlay_inv in Hplay
    as [(h & sent & err & _ & -> & ->)
       |(h & sent & pathName & p2 & c2 & _ & Hc2 & _
         & [(pa' & Hpa & -> & ->)|(Hpa & -> & ->)])].
  - destruct (effects_HTTPDo_app sent [Reply (readpublisher.Res req) err])
      as (_ & Heq & _). rewrite Heq in Hmade. by apply elem_of_nil in Hmade.
  - destruct (effects_HTTPDo_app sent [fwd (Some pa') req]) as (_ & Heq & _).
    rewrite Heq, Hm in Hmade. by apply elem_of_nil in Hmade.
  - match type of Hmade with
    | context [PathNew ?x] => set (new := x) in *
    end.
    destruct (effects_HTTPDo_app sent [PathNew new; fwd (Some new) req])
      as (_ & Heq & _). rewrite Heq in Hmade.
    change (pa ∈ new :: made [fwd (Some new) req]) in Hmade.
    rewrite Hm in Hmade. apply list_elem_of_singleton in Hmade as ->.
    unfold onPathClose. simpl. rewrite Hc2. simpl.
    rewrite lookup_insert_eq. simpl. rewrite Nat.eqb_refl. simpl.
    eexists. split; [done|]. simpl. split; [|done].
    by apply delete_insert_id.
Qed.

Lemma play_then_close_restores_witness :
  ∃ st'',
    @onPathClose Sample.lib
      {| path.id := 0; path.ConfName := "cam1"; path.Conf := 0%nat;
         path.Name := "cam1" |}
      {| heap := [Sample.publisher]; authMethods := [AuthBasic; AuthDigest];
         pathConfs := {[ "cam1" := 0%nat ]};
         paths := {[ "publisher" :=
                       {| path.id := 0; path.ConfName := "cam1";
                          path.Conf := 0%nat; path.Name := "cam1" |} ]};
         pathsMade := 1 |}
    = Some (st'', [PathClose {| path.id := 0; path.ConfName := "cam1";
                                path.Conf := 0%nat; path.Name := "cam1" |}])
    ∧ paths st'' = ∅.
Proof.
  destruct (@play_then_close_restores Sample.lib Sample.pkg
              (@onDescribe Sample.lib Sample.pkg) (Sample.answering 200 "")
              (Sample.request "cam1" None 7) (Sample.manager Sample.publisher)
              {| heap := [Sample.publisher]; authMethods := [AuthBasic; AuthDigest];
                 pathConfs := {[ "cam1" := 0%nat ]};
                 paths := {[ "publisher" :=
                               {| path.id := 0; path.ConfName := "cam1";
                                  path.Conf := 0%nat; path.Name := "cam1" |} ]};
                 pathsMade := 1 |}
              [PathNew {| path.id := 0; path.ConfName := "cam1";
                          path.Conf := 0%nat; path.Name := "cam1" |};
               OnPathManDescribe
                 (Some {| path.id := 0; path.ConfName := "cam1";
                          path.Conf := 0%nat; path.Name := "cam1" |})
                 (Sample.request "cam1" None 7)]
              {| path.id := 0; path.ConfName := "cam1"; path.Conf := 0%nat;
                 path.Name := "cam1" |}) as (st'' & Hclose & Hpaths & _).
  - by left.
  - vm_compute. reflexivity.
  - vm_compute. left.
  - exists st''. split; [exact Hclose|exact Hpaths].
Defined.

(** ** [createPaths] *)

Lemma createPaths_loop_made `{GoLib} (keys : list string) (st st' : State) out :
  createPaths_loop keys st = Some (st', out) →
  authMethods st' = authMethods st
  ∧ pathsMade st' = (pathsMade st + length (made out))%nat
  ∧ ∀ pa, pa ∈ made out →
      path.ConfName pa ∈ keys ∧ path.Name pa = path.ConfName pa
      ∧ conf_stored (pathConfs st) pa
      ∧ (pathsMade st ≤ path.id pa < pathsMade st')%nat
      ∧ ∃ c, heap st !! path.Conf pa = Some c ∧ Regexp c = None
          ∧ paths st !! Source c = None.
Proof.
  revert st st' out. induction keys as [|k keys IH]; intros st st' out Hrun.
  { simpl in Hrun. simplify_eq. simpl. split_and!; [done|lia|].
    intros pa Hin. by apply elem_of_nil in Hin. }
  simpl in Hrun.
  assert (createPaths_loop keys st = Some (st', out) →
          authMethods st' = authMethods st
          ∧ pathsMade st' = (pathsMade st + length (made out))%nat
          ∧ ∀ pa, pa ∈ made out →
              path.ConfName pa ∈ k :: keys ∧ path.Name pa = path.ConfName pa
              ∧ conf_stored (pathConfs st) pa
              ∧ (pathsMade st ≤ path.id pa < pathsMade st')%nat
              ∧ ∃ c, heap st !! path.Conf pa = Some c ∧ Regexp c = None
                  ∧ paths st !! Source c = None) as Hskip.
  { intros Hrest. apply IH in Hrest as (Ha & Hn & Hall). split_and!; try done.
    intros pa Hin. destruct (Hall pa Hin) as (Hk & ?). split; [by right|done]. }
  destruct (pathConfs st !! k) as [p|] eqn:Hk; [|by apply Hskip].
  destruct (heap st !! p) as [c|] eqn:Hc; [|done]. simpl in Hrun.
  destruct (bool_decide (paths st !! Source c = None)) eqn:Hp;
    [|by apply Hskip].
  destruct (bool_decide (Regexp c = None)) eqn:Hre; [|by apply Hskip].
  apply bool_decide_eq_true in Hp. apply bool_decide_eq_true in Hre.
  simpl in Hrun.
  destruct (createPaths_loop keys _) as [[st2 out2]|] eqn:Hrest; [|done].
  simpl in Hrun. injection Hrun as <- <-.
  apply IH in Hrest as (Ha & Hn & Hall). simpl in *.
  split_and!; [done|lia|].
  intros pa [->|Hin]%elem_of_cons.
  - simpl. split; [by left|]. split; [done|]. split; [exact Hk|].
    split; [lia|]. by exists c.
  - destruct (Hall pa Hin) as (Hk' & Hname & Hstored & Hid & Hlit).
    split; [by right|]. split; [done|]. split; [done|]. split; [lia|]. done.
Qed.




(** ** [case pathConfs := <-pm.confReload] *)

Lemma removeConfs_lookup (newConfs confs : gmap string ptr) (keys : list string)
    (k : string) :
  (k ∈ keys →
     removeConfs newConfs keys confs !! k
     = match newConfs !! k with None => None | Some _ => confs !! k end)
  ∧ (k ∉ keys → removeConfs newConfs keys confs !! k = confs !! k).
Proof.
  unfold removeConfs. revert confs.
  induction keys as [|a keys IH]; intros confs.
  { split; [|done]. intros Hin. by apply elem_of_nil in Hin. }
  cbn [foldl]. destruct (IH (match newConfs !! a with
                             | Some _ => confs
                             | None => delete a confs
                             end)) as [IHin IHnin].
  assert (a ≠ k →
          match newConfs !! a with
          | Some _ => confs
          | None => delete a confs
          end !! k = confs !! k) as Hother.
  { intros Hne. destruct (newConfs !! a); [done|]. by rewrite lookup_delete_ne. }
  split.
  - intros Hin. destruct (decide (k ∈ keys)) as [Hk|Hk].
    + rewrite IHin by done. destruct (newConfs !! k) as [q|] eqn:Hq; [|done].
      destruct (decide (a = k)) as [->|Hne]; [by rewrite Hq|by apply Hother].
    + rewrite IHnin by done.
      apply elem_of_cons in Hin as [->|Hin]; [|done].
      destruct (newConfs !! a); [done|]. by rewrite lookup_delete_eq.
  - intros Hnin. apply not_elem_of_cons in Hnin as [Hne Hnin].
    rewrite IHnin by done. by apply Hother.
Qed.

Lemma updateConfs_lookup `{ConfPkg} (h : list PathConf) (newConfs : gmap string ptr)
    (keys : list string) (confs : gmap string ptr) :
  NoDup keys →
  (∀ k p, k ∈ keys → confs !! k = Some p →
     ∃ q c d, newConfs !! k = Some q ∧ h !! p = Some c ∧ h !! q = Some d) →
  ∃ confs2, updateConfs h newConfs keys confs = Some confs2
    ∧ ∀ k, (k ∈ keys → is_Some (confs !! k) →
              confs2 !! k = reloaded h confs newConfs k)
           ∧ (k ∉ keys ∨ confs !! k = None → confs2 !! k = confs !! k).
Proof.
  revert confs. induction keys as [|a keys IH]; intros confs Hnodup Hok.
  { exists confs. split; [done|]. intros k. split; [|done].
    intros Hin. by apply elem_of_nil in Hin. }
  apply NoDup_cons in Hnodup as [Ha Hnodup]. cbn [updateConfs].
  destruct (confs !! a) as [p|] eqn:Hp.
  - destruct (Hok a p) as (q & c & d & Hq & Hc & Hd); [by left|done|].
    rewrite Hc, Hq. cbn [mbind option_bind]. rewrite Hd. cbn [mbind option_bind].
    assert (reloaded h confs newConfs a
            = Some (if PathConf_Equal c d then p else q)) as Ha'.
    { unfold reloaded. rewrite Hq, Hp, Hc, Hd. by destruct (PathConf_Equal c d). }
    destruct (PathConf_Equal c d) eqn:Heq; cbn [negb].
    + destruct (IH confs Hnodup) as (confs2 & -> & Hlook).
      { intros k p' Hk. apply Hok. by right. }
      exists confs2. split; [done|]. intros k.
      destruct (Hlook k) as [Hin Hnin]. split.
      * intros [->|Hk]%elem_of_cons Hsome; [|by apply Hin].
        rewrite Hnin by by left. by rewrite Hp, Ha'.
      * intros [[Hne Hk]%not_elem_of_cons|Hnone]; apply Hnin; auto.
    + destruct (IH (<[a := q]> confs) Hnodup) as (confs2 & -> & Hlook).
      { intros k p' Hk Hk'. rewrite lookup_insert_ne in Hk' by (intros ->; done).
        apply (Hok k p'); [by right|done]. }
      exists confs2. split; [done|]. intros k.
      destruct (Hlook k) as [Hin Hnin]. split.
      * intros [->|Hk]%elem_of_cons Hsome.
        -- rewrite Hnin by by left. by rewrite lookup_insert_eq, Ha'.
        -- assert (a ≠ k) as Hne by (intros ->; done).
           rewrite Hin; [|done|by rewrite lookup_insert_ne].
           unfold reloaded. by rewrite lookup_insert_ne.
      * intros Hcase.
        assert (a ≠ k) as Hne.
        { intros <-. destruct Hcase as [Hk|Hk]; [|congruence].
          apply Hk. by left. }
        rewrite Hnin; [by rewrite lookup_insert_ne|].
        destruct Hcase as [[_ Hk]%not_elem_of_cons|Hnone]; [by left|].
        right. by rewrite lookup_insert_ne.
  - destruct (IH confs Hnodup) as (confs2 & -> & Hlook).
    { intros k p' Hk. apply Hok. by right. }
    exists confs2. split; [done|]. intros k.
    destruct (Hlook k) as [Hin Hnin]. split.
    + intros [->|Hk]%elem_of_cons Hsome; [|by apply Hin].
      rewrite Hp in Hsome. by destruct Hsome.
    + intros [[Hne Hk]%not_elem_of_cons|Hnone]; apply Hnin; auto.
Qed.

Lemma addConfs_lookup (newConfs confs : gmap string ptr) (keys : list string)
    (k : string) :
  (is_Some (confs !! k) → addConfs newConfs keys confs !! k = confs !! k)
  ∧ (confs !! k = None → k ∈ keys → addConfs newConfs keys confs !! k = newConfs !! k)
  ∧ (confs !! k = None → k ∉ keys → addConfs newConfs keys confs !! k = None).
Proof.
  unfold addConfs. revert confs.
  induction keys as [|a keys IH]; intros confs.
  { cbn [foldl]. split; [done|]. split.
    - intros _ Hin. by apply elem_of_nil in Hin.
    - by intros ->. }
  cbn [foldl].
  set (confs' := match newConfs !! a with
                 | Some pathConf =>
                     match confs !! a with
                     | Some _ => confs
                     | None => <[a:=pathConf]> confs
                     end
                 | None => confs
                 end).
  destruct (IH confs') as (IHsome & IHin & IHnin).
  assert (a ≠ k → confs' !! k = confs !! k) as Hother.
  { intros Hne. unfold confs'. destruct (newConfs !! a); [|done].
    destruct (confs !! a); [done|]. by rewrite lookup_insert_ne. }
  assert (is_Some (confs !! k) → confs' !! k = confs !! k) as Hsame.
  { intros [p Hp]. destruct (decide (a = k)) as [->|Hne]; [|by apply Hother].
    unfold confs'. destruct (newConfs !! k); [|done]. by rewrite Hp. }
  split; [|split].
  - intros Hsome. rewrite IHsome; [by apply Hsame|]. by rewrite Hsame.
  - intros Hnone Hin. destruct (decide (a = k)) as [->|Hne].
    + unfold confs' in *. destruct (newConfs !! k) as [q|] eqn:Hq.
      * rewrite Hnone in *. rewrite IHsome; by rewrite lookup_insert_eq.
      * destruct (decide (k ∈ keys)).
        -- by rewrite IHin.
        -- by rewrite IHnin.
    + apply elem_of_cons in Hin as [->|Hin]; [done|].
      apply IHin; [|done]. by rewrite Hother.
  - intros Hnone [Hne Hnin]%not_elem_of_cons.
    apply IHnin; [|done]. by rewrite Hother.
Qed.

Lemma NoDup_keys_of `{GoLib} {V : Type} (m : gmap string V) : NoDup (keys_of m).
Proof.
  unfold keys_of. rewrite range_keys_perm. apply NoDup_fst_map_to_list.
Qed.

Lemma reloaded_allocated `{ConfPkg} (h : list PathConf) (confs newConfs : gmap string ptr)
    (k : string) (r : ptr) :
  confs_allocated h confs → confs_allocated h newConfs →
  reloaded h confs newConfs k = Some r →
  is_Some (h !! r) ∧ (confs !! k = Some r ∨ newConfs !! k = Some r).
Proof.
  intros Hold Hnew. unfold reloaded.
  destruct (newConfs !! k) as [q|] eqn:Hq; [|done].
  destruct (confs !! k) as [p|] eqn:Hp.
  - destruct (h !! p) as [c|] eqn:Hc; [|done].
    destruct (h !! q) as [d|] eqn:Hd; [|done].
    destruct (PathConf_Equal c d); intros [= <-].
    + split; [by eexists|by left].
    + split; [by eexists|by right].
  - intros [= <-]. split; [by apply (Hnew k)|by right].
Qed.

(** The three loops over the registry, together. *)
Lemma reload_confs_lookup `{ConfPkg} (h : list PathConf) (confs newConfs : gmap string ptr) :
  confs_allocated h confs → confs_allocated h newConfs →
  ∃ confs2,
    updateConfs h newConfs (keys_of (removeConfs newConfs (keys_of confs) confs))
      (removeConfs newConfs (keys_of confs) confs) = Some confs2
    ∧ ∀ k, addConfs newConfs (keys_of newConfs) confs2 !! k
           = reloaded h confs newConfs k.
Proof.
  intros Hold Hnew.
  set (confs1 := removeConfs newConfs (keys_of confs) confs).
  assert (∀ k, confs1 !! k
               = match newConfs !! k with None => None | Some _ => confs !! k end)
    as Hconfs1.
  { intros k. unfold confs1.
    destruct (removeConfs_lookup newConfs confs (keys_of confs) k) as [Hin Hnin].
    destruct (confs !! k) as [p|] eqn:Hp.
    - rewrite Hin by (apply elem_of_keys_of; by eexists). done.
    - rewrite Hnin; [by destruct (newConfs !! k)|].
      rewrite elem_of_keys_of, Hp. by intros [? ?]. }
  destruct (updateConfs_lookup h newConfs (keys_of confs1) confs1)
    as (confs2 & Hupdate & Hconfs2).
  { apply NoDup_keys_of. }
  { intros k p _ Hk. rewrite Hconfs1 in Hk.
    destruct (newConfs !! k) as [q|] eqn:Hq; [|done].
    destruct (Hold k p Hk) as [c Hc]. destruct (Hnew k q Hq) as [d Hd].
    by exists q, c, d. }
  exists confs2. split; [done|]. intros k.
  destruct (addConfs_lookup newConfs confs2 (keys_of newConfs) k)
    as (Hsome & Hin & Hnin).
  destruct (Hconfs2 k) as [Hupd Hkeep].
  unfold reloaded.
  destruct (newConfs !! k) as [q|] eqn:Hq.
  - destruct (confs !! k) as [p|] eqn:Hp.
    + assert (confs1 !! k = Some p) as Hk1 by by rewrite Hconfs1, Hq.
      assert (confs2 !! k = reloaded h confs1 newConfs k) as Hk2.
      { apply Hupd; [|by eexists]. apply elem_of_keys_of. by eexists. }
      unfold reloaded in Hk2. rewrite Hq, Hk1 in Hk2.
      destruct (Hold k p Hp) as [c Hc]. destruct (Hnew k q Hq) as [d Hd].
      rewrite Hc, Hd in Hk2 |- *. rewrite Hsome; [done|].
      rewrite Hk2. by destruct (PathConf_Equal c d).
    + assert (confs1 !! k = None) as Hk1 by by rewrite Hconfs1, Hq.
      assert (confs2 !! k = None) as Hk2 by (rewrite Hkeep; auto).
      rewrite Hin; [done|done|]. apply elem_of_keys_of. by eexists.
  - assert (confs1 !! k = None) as Hk1 by by rewrite Hconfs1, Hq.
    assert (confs2 !! k = None) as Hk2 by (rewrite Hkeep; auto).
    apply Hnin; [done|]. rewrite elem_of_keys_of, Hq. by intros [? ?].
Qed.

Lemma removePaths_sub `{GoLib} (confs : gmap string ptr) (keys : list string)
    (ps ps' : gmap string path.Path) out :
  removePaths confs keys ps = (ps', out) →
  ∀ src pa, ps' !! src = Some pa → ps !! src = Some pa.
Proof.
  revert ps ps' out. induction keys as [|k keys IH]; intros ps ps' out Hrun src pa Hsrc.
  { simpl in Hrun. by simplify_eq. }
  simpl in Hrun. destruct (ps !! k) as [pa'|] eqn:Hk; [|by eapply IH].
  destruct (match confs !! path.ConfName pa' with
            | Some pathConf => negb (bool_decide (pathConf = path.Conf pa'))
            | None => true
            end); [|by eapply IH].
  destruct (removePaths confs keys (delete k ps)) as [ps2 out2] eqn:Hrest.
  injection Hrun as <- <-.
  pose proof (IH _ _ _ Hrest src pa Hsrc) as Hdel.
  by apply lookup_delete_Some in Hdel as [_ ?].
Qed.

(** The loop over the live Paths, when it visits every key whose Path
    has a configuration that is not the stored object. *)
Lemma removePaths_lookup `{GoLib} (confs : gmap string ptr) (keys : list string)
    (ps ps' : gmap string path.Path) out :
  (∀ src pa, ps !! src = Some pa → src ∈ keys ∨ conf_stored confs pa) →
  removePaths confs keys ps = (ps', out) →
  (∀ src pa, ps' !! src = Some pa ↔ ps !! src = Some pa ∧ conf_stored confs pa)
  ∧ (∀ pa, pa ∈ closed out ↔ ∃ src, ps !! src = Some pa ∧ ¬ conf_stored confs pa).
Proof.
  revert ps ps' out. induction keys as [|k keys IH]; intros ps ps' out Hcover Hrun.
  { simpl in Hrun. injection Hrun as <- <-. split.
    - intros src pa. split; [|by intros [? _]].
      intros Hsrc. split; [done|].
      destruct (Hcover src pa Hsrc) as [Hin|?]; [by apply elem_of_nil in Hin|done].
    - intros pa. split; [intros Hin; by apply elem_of_nil in Hin|].
      intros (src & Hsrc & Hnot).
      destruct (Hcover src pa Hsrc) as [Hin|?]; [by apply elem_of_nil in Hin|done]. }
  simpl in Hrun. destruct (ps !! k) as [pa'|] eqn:Hk.
  - assert (match confs !! path.ConfName pa' with
            | Some pathConf => negb (bool_decide (pathConf = path.Conf pa'))
            | None => true
            end = negb (bool_decide (confs !! path.ConfName pa'
                                     = Some (path.Conf pa')))) as Hstale.
    { destruct (confs !! path.ConfName pa') as [p|].
      - f_equal. apply bool_decide_ext. split; congruence.
      - by rewrite bool_decide_eq_false_2. }
    rewrite Hstale in Hrun. case_bool_decide as Hstored; simpl in Hrun;
      fold (conf_stored confs pa') in Hstored.
    + apply IH; [|done]. intros src pa Hsrc.
      destruct (Hcover src pa Hsrc) as [[->|Hin]%elem_of_cons|?]; auto.
      right. congruence.
    + destruct (removePaths confs keys (delete k ps)) as [ps2 out2] eqn:Hrest.
      injection Hrun as <- <-.
      destruct (IH (delete k ps) ps2 out2) as [Hkept Hclosed]; [|done|].
      { intros src pa [Hne Hsrc]%lookup_delete_Some.
        destruct (Hcover src pa Hsrc) as [[->|Hin]%elem_of_cons|?]; auto. done. }
      split.
      * intros src pa. rewrite Hkept, lookup_delete_Some. split.
        -- by intros [[_ ?] ?].
        -- intros [Hsrc ?]. split; [|done]. split; [|done].
           intros <-. congruence.
      * intros pa. change (pa ∈ pa' :: closed out2
                           ↔ ∃ src, ps !! src = Some pa ∧ ¬ conf_stored confs pa).
        rewrite elem_of_cons, Hclosed. split.
        -- intros [->|(src & [_ Hsrc]%lookup_delete_Some & Hnot)]; [by exists k|].
           by exists src.
        -- intros (src & Hsrc & Hnot). destruct (decide (k = src)) as [->|Hne].
           ++ left. congruence.
           ++ right. exists src. split; [|done]. by apply lookup_delete_Some.
  - apply IH; [|done]. intros src pa Hsrc.
    destruct (Hcover src pa Hsrc) as [[->|Hin]%elem_of_cons|?]; auto. congruence.
Qed.

(** A reload over a registry and with an incoming map whose pointers all
    point to objects, taken apart. *)
Lemma onConfReload_inv `{ConfPkg} (newConfs : gmap string ptr) (st : State) :
  confs_allocated (heap st) (pathConfs st) →
  confs_allocated (heap st) newConfs →
  ∃ st' out1 out2,
    onConfReload newConfs st = Some (st', out1 ++ out2)
    ∧ (∀ k, pathConfs st' !! k = reloaded (heap st) (pathConfs st) newConfs k)
    ∧ removePaths (pathConfs st') (keys_of (paths st)) (paths st) = (paths st', out1)
    ∧ createPaths_loop (keys_of (pathConfs st'))
        {| heap := heap st; authMethods := authMethods st;
           pathConfs := pathConfs st'; paths := paths st';
           pathsMade := pathsMade st |} = Some (st', out2)
    ∧ heap st' = heap st ∧ authMethods st' = authMethods st
    ∧ (pathsMade st ≤ pathsMade st')%nat.
Proof.
  intros Hold Hnew. unfold onConfReload.
  destruct (reload_confs_lookup (heap st) (pathConfs st) newConfs Hold Hnew)
    as (confs2 & -> & Hconfs3).
  cbn [mbind option_bind].
  set (confs3 := addConfs newConfs (keys_of newConfs) confs2) in *.
  destruct (removePaths confs3 (keys_of (paths st)) (paths st)) as [ps out1] eqn:Hremove.
  assert (confs_allocated (heap st) confs3) as Halloc.
  { intros k r Hk. rewrite Hconfs3 in Hk.
    by destruct (reloaded_allocated _ _ _ _ _ Hold Hnew Hk). }
  destruct (createPaths_loop_Some (keys_of confs3)
              (set_paths (set_pathConfs st confs3) ps)) as [[st' out2] Hcreate];
    [done|].
  unfold createPaths. cbn [pathConfs set_paths set_pathConfs].
  fold (set_pathConfs st confs3). fold (set_paths (set_pathConfs st confs3) ps).
  rewrite Hcreate. cbn [mbind option_bind].
  pose proof (createPaths_loop_inv _ _ _ _ Hcreate) as (Hp & Hc & Hh & _).
  pose proof (createPaths_loop_made _ _ _ _ Hcreate) as (Ha & Hn & _).
  cbn in Hp, Hc, Hh, Ha, Hn.
  exists st', out1, out2. rewrite Hc, Hp.
  split; [done|]. split; [done|]. split; [done|]. split; [exact Hcreate|].
  split; [done|]. split; [done|]. lia.
Qed.

(** X14: a reload over a registry and with an incoming map whose
    pointers all point to objects is always handled, and leaves a registry
    with exactly the keys of the incoming map: under a key the registry did
    not have, the incoming pointer; under a key it had, the pointer it had
    when the two objects are [Equal] and the incoming pointer when they are
    not.  No object of the heap is written or added. *)
Theorem reload_registry `{ConfPkg} (newConfs : gmap string ptr) (st : State) :
  confs_allocated (heap st) (pathConfs st) →
  confs_allocated (heap st) newConfs →
  ∃ st' out, onConfReload newConfs st = Some (st', out)
    ∧ (∀ k, pathConfs st' !! k = reloaded (heap st) (pathConfs st) newConfs k)
    ∧ (∀ k, is_Some (pathConfs st' !! k) ↔ is_Some (newConfs !! k))
    ∧ (∀ k r, pathConfs st' !! k = Some r →
         pathConfs st !! k = Some r ∨ newConfs !! k = Some r)
    ∧ heap st' = heap st
    ∧ confs_allocated (heap st') (pathConfs st').
Proof.
  intros Hold Hnew.
  destruct (onConfReload_inv newConfs st Hold Hnew)
    as (st' & out1 & out2 & Hrun & Hconfs & _ & _ & Hheap & _).
  exists st', (out1 ++ out2). split; [done|]. split; [done|]. split_and!.
  - intros k. rewrite Hconfs. unfold reloaded.
    destruct (newConfs !! k) as [q|] eqn:Hq; [|by split; intros [? ?]].
    split; [by eexists|]. intros _.
    destruct (pathConfs st !! k) as [p|] eqn:Hp; [|by eexists].
    destruct (Hold k p Hp) as [c ->]. destruct (Hnew k q Hq) as [d ->].
    destruct (PathConf_Equal c d); by eexists.
  - intros k r Hk. rewrite Hconfs in Hk.
    by destruct (reloaded_allocated _ _ _ _ _ Hold Hnew Hk).
  - done.
  - intros k r Hk. rewrite Hconfs in Hk. rewrite Hheap.
    by destruct (reloaded_allocated _ _ _ _ _ Hold Hnew Hk).
Qed.

Lemma reload_registry_witness :
  ∃ st' out,
    @onConfReload Sample.lib Sample.pkg {[ "cam2" := 1%nat ]}
      {| heap := [Sample.publisher; Sample.publisher]; authMethods := [];
         pathConfs := {[ "cam1" := 0%nat ]}; paths := ∅; pathsMade := 0 |}
    = Some (st', out)
    ∧ heap st' = [Sample.publisher; Sample.publisher].
Proof.
  destruct (@reload_registry Sample.lib Sample.pkg {[ "cam2" := 1%nat ]}
              {| heap := [Sample.publisher; Sample.publisher]; authMethods := [];
                 pathConfs := {[ "cam1" := 0%nat ]}; paths := ∅; pathsMade := 0 |})
    as (st' & out & Hrun & _ & _ & _ & Hheap & _).
  - intros k p Hk. simpl in Hk. apply lookup_singleton_Some in Hk as [_ <-].
    by eexists.
  - intros k p Hk. apply lookup_singleton_Some in Hk as [_ <-]. by eexists.
  - exists st', out. split; [exact Hrun|exact Hheap].
Defined.

(** X15: after such a reload the live Paths are those that were live
    and whose configuration is the object the new registry stores under
    their configuration name, each under its key; the Paths closed are
    those that were live and whose configuration is not that object, and
    no other.  So after a reload every live Path has the stored object as
    its configuration. *)
Theorem reload_keeps_stored_paths_only `{ConfPkg} (newConfs : gmap string ptr)
    (st : State) :
  confs_allocated (heap st) (pathConfs st) →
  confs_allocated (heap st) newConfs →
  ∃ st' out, onConfReload newConfs st = Some (st', out)
    ∧ (∀ src pa, paths st' !! src = Some pa
                 ↔ paths st !! src = Some pa ∧ conf_stored (pathConfs st') pa)
    ∧ (∀ pa, pa ∈ closed out
             ↔ ∃ src, paths st !! src = Some pa ∧ ¬ conf_stored (pathConfs st') pa)
    ∧ replies out = [] ∧ forwards out = [].
Proof.
  intros Hold Hnew.
  destruct (onConfReload_inv newConfs st Hold Hnew)
    as (st' & out1 & out2 & Hrun & _ & Hremove & Hcreate & _).
  exists st', (out1 ++ out2). split; [done|].
  destruct (removePaths_lookup _ _ _ _ _
              (λ src pa Hsrc, or_introl (proj2 (elem_of_keys_of (paths st) src)
                                           (ex_intro _ pa Hsrc))) Hremove)
    as [Hkept Hclosed].
  pose proof (removePaths_inv _ _ _ _ _ Hremove) as (_ & _ & _ & Hr1 & Hf1 & _).
  pose proof (createPaths_loop_inv _ _ _ _ Hcreate) as (_ & _ & _ & Hc2 & Hr2 & Hf2 & _).
  split; [done|].
  unfold closed, replies, forwards. rewrite !omap_app.
  fold (closed out1) (closed out2) (replies out1) (replies out2)
    (forwards out1) (forwards out2).
  rewrite Hc2, Hr1, Hr2, Hf1, Hf2, app_nil_r. done.
Qed.

Lemma reload_keeps_stored_paths_only_witness :
  ∃ st' out,
    @onConfReload Sample.lib Sample.pkg {[ "cam1" := 0%nat ]}
      {| heap := [Sample.publisher; set_Source Sample.publisher "rtsp://u/x"];
         authMethods := []; pathConfs := {[ "cam1" := 0%nat ]};
         paths := {[ "rtsp://u/x" :=
                       {| path.id := 0; path.ConfName := "cam1";
                          path.Conf := 1%nat; path.Name := "cam1" |} ]};
         pathsMade := 1 |}
    = Some (st', out)
    ∧ replies out = [].
Proof.
  destruct (@reload_keeps_stored_paths_only Sample.lib Sample.pkg {[ "cam1" := 0%nat ]}
              {| heap := [Sample.publisher; set_Source Sample.publisher "rtsp://u/x"];
                 authMethods := []; pathConfs := {[ "cam1" := 0%nat ]};
                 paths := {[ "rtsp://u/x" :=
                               {| path.id := 0; path.ConfName := "cam1";
                                  path.Conf := 1%nat; path.Name := "cam1" |} ]};
                 pathsMade := 1 |})
    as (st' & out & Hrun & _ & _ & Hreplies & _).
  - intros k p Hk. simpl in Hk. apply lookup_singleton_Some in Hk as [_ <-].
    by eexists.
  - intros k p Hk. apply lookup_singleton_Some in Hk as [_ <-]. by eexists.
  - exists st', out. split; [exact Hrun|exact Hreplies].
Defined.

Lemma same_confs_allocated `{ConfPkg} (h : list PathConf) (newConfs confs : gmap string ptr) :
  same_confs h newConfs confs →
  confs_allocated h confs ∧ confs_allocated h newConfs.
Proof.
  intros [Hkeys Hequal]. split.
  - intros k p Hk. destruct (proj2 (Hkeys k)) as [q Hq]; [by eexists|].
    destruct (Hequal k p q Hk Hq) as (c & _ & Hc & _). by eexists.
  - intros k q Hq. destruct (proj1 (Hkeys k)) as [p Hp]; [by eexists|].
    destruct (Hequal k p q Hp Hq) as (_ & d & _ & Hd & _). by eexists.
Qed.

Lemma reloaded_same `{ConfPkg} (h : list PathConf) (newConfs confs : gmap string ptr)
    (k : string) :
  same_confs h newConfs confs → reloaded h confs newConfs k = confs !! k.
Proof.
  intros [Hkeys Hequal]. unfold reloaded.
  destruct (newConfs !! k) as [q|] eqn:Hq.
  - destruct (proj1 (Hkeys k)) as [p Hp]; [by eexists|]. rewrite Hp.
    destruct (Hequal k p q Hp Hq) as (c & d & -> & -> & ->). done.
  - destruct (confs !! k) as [p|] eqn:Hp; [|done].
    destruct (proj2 (Hkeys k)) as [q Hq']; [by eexists|]. congruence.
Qed.

(** A reload with a map that is key for key [Equal] to the registry,
    when every live Path has the stored object as its configuration. *)
Lemma onConfReload_same `{ConfPkg} (newConfs : gmap string ptr) (st : State) :
  same_confs (heap st) newConfs (pathConfs st) →
  (∀ src pa, paths st !! src = Some pa → conf_stored (pathConfs st) pa) →
  ∃ st' out, onConfReload newConfs st = Some (st', out)
    ∧ pathConfs st' = pathConfs st ∧ paths st' = paths st ∧ closed out = [].
Proof.
  intros Hsame Hall.
  destruct (same_confs_allocated _ _ _ Hsame) as [Hold Hnew].
  destruct (onConfReload_inv newConfs st Hold Hnew)
    as (st' & out1 & out2 & Hrun & Hconfs & Hremove & Hcreate & _).
  assert (pathConfs st' = pathConfs st) as Heq.
  { apply map_eq. intros k. rewrite Hconfs. by apply reloaded_same. }
  rewrite Heq in Hremove. rewrite (removePaths_all_stored _ _ _ Hall) in Hremove.
  injection Hremove as Hpaths <-.
  pose proof (createPaths_loop_inv _ _ _ _ Hcreate) as (_ & _ & _ & Hc2 & _).
  exists st', ([] ++ out2). by split_and!.
Qed.

(** X16: reloads do not churn twice.  Right after a reload, a further
    reload whose map is key for key [Equal] to what the registry now holds
    changes neither the registry nor the live Paths and closes nothing,
    whatever the live Paths were before the first reload: the first reload
    has closed every Path whose configuration was not the stored object. *)
Theorem reload_then_equal_reload_no_churn `{ConfPkg}
    (newConfs newConfs2 : gmap string ptr) (st st1 : State) (out1 : list Effect) :
  confs_allocated (heap st) (pathConfs st) →
  confs_allocated (heap st) newConfs →
  onConfReload newConfs st = Some (st1, out1) →
  same_confs (heap st1) newConfs2 (pathConfs st1) →
  ∃ st2 out2, onConfReload newConfs2 st1 = Some (st2, out2)
    ∧ pathConfs st2 = pathConfs st1 ∧ paths st2 = paths st1 ∧ closed out2 = [].
Proof.
  intros Hold Hnew Hrun Hsame.
  destruct (onConfReload_inv newConfs st Hold Hnew)
    as (st' & o1 & o2 & Hrun' & _ & Hremove & _).
  rewrite Hrun in Hrun'. injection Hrun' as <- ->.
  apply onConfReload_same; [done|].
  intros src pa Hsrc.
  destruct (removePaths_lookup _ _ _ _ _
              (λ src pa Hsrc, or_introl (proj2 (elem_of_keys_of (paths st) src)
                                           (ex_intro _ pa Hsrc))) Hremove)
    as [Hkept _].
  by apply Hkept in Hsrc as [_ ?].
Qed.

Lemma reload_then_equal_reload_no_churn_witness :
  ∃ st2 out2,
    @onConfReload Sample.lib Sample.pkg {[ "cam1" := 0%nat ]}
      {| heap := [Sample.publisher; set_Source Sample.publisher "rtsp://u/x"];
         authMethods := []; pathConfs := {[ "cam1" := 0%nat ]};
         paths := ∅; pathsMade := 2 |}
    = Some (st2, out2)
    ∧ paths st2 = ∅ ∧ closed out2 = [].
Proof.
  destruct (@reload_then_equal_reload_no_churn Sample.lib Sample.pkg
              {[ "cam1" := 0%nat ]} {[ "cam1" := 0%nat ]}
              {| heap := [Sample.publisher; set_Source Sample.publisher "rtsp://u/x"];
                 authMethods := []; pathConfs := {[ "cam1" := 0%nat ]};
                 paths := {[ "rtsp://u/x" :=
                               {| path.id := 0; path.ConfName := "cam1";
                                  path.Conf := 1%nat; path.Name := "cam1" |} ]};
                 pathsMade := 1 |}
              {| heap := [Sample.publisher; set_Source Sample.publisher "rtsp://u/x"];
                 authMethods := []; pathConfs := {[ "cam1" := 0%nat ]};
                 paths := ∅; pathsMade := 2 |}
              [PathClose {| path.id := 0; path.ConfName := "cam1";
                            path.Conf := 1%nat; path.Name := "cam1" |};
               PathNew {| path.id := 1; path.ConfName := "cam1";
                          path.Conf := 0%nat; path.Name := "cam1" |}])
    as (st2 & out2 & Hrun & _ & Hpaths & Hclosed).
  - intros k p Hk. simpl in Hk. apply lookup_singleton_Some in Hk as [_ <-].
    by eexists.
  - intros k p Hk. apply lookup_singleton_Some in Hk as [_ <-]. by eexists.
  - vm_compute. reflexivity.
  - apply (same_confs_singleton _ _ _ _ Sample.publisher Sample.publisher);
      vm_compute; reflexivity.
  - exists st2, out2. split; [exact Hrun|]. split; [exact Hpaths|exact Hclosed].
Defined.

(** ** Whole runs *)

Lemma onConfReload_frame `{ConfPkg} (newConfs : gmap string ptr) (st st' : State) out :
  onConfReload newConfs st = Some (st', out) →
  heap st' = heap st ∧ authMethods st' = authMethods st
  ∧ (pathsMade st ≤ pathsMade st')%nat
  ∧ ∀ src pa, paths st' !! src = Some pa → paths st !! src = Some pa.
Proof.
  unfold onConfReload. intros Hrun.
  destruct (updateConfs _ _ _ _) as [confs2|]; [|done]. cbn in Hrun.
  destruct (removePaths _ _ _) as [ps out1] eqn:Hremove.
  unfold createPaths in Hrun.
  destruct (createPaths_loop _ _) as [[st2 out2]|] eqn:Hcreate; [|done].
  cbn in Hrun. injection Hrun as <- <-.
  pose proof (createPaths_loop_inv _ _ _ _ Hcreate) as (Hp & _ & Hh & _).
  pose proof (createPaths_loop_made _ _ _ _ Hcreate) as (Ha & Hn & _).
  cbn in Hp, Hh, Ha, Hn. split_and!; try done; [lia|].
  intros src pa. rewrite Hp. by apply (removePaths_sub _ _ _ _ _ Hremove).
Qed.

Lemma run_step_frame `{ConfPkg} (ev : Event) (st st' : State) out :
  run_step ev st = Some (st', out) →
  heap st `prefix_of` heap st' ∧ authMethods st' = authMethods st
  ∧ (pathsMade st ≤ pathsMade st')%nat
  ∧ (is_reload ev = false → pathConfs st' = pathConfs st).
Proof.
  destruct ev as [loaded newConfs|pa|net req|net req|req]; simpl; intros Hrun.
  - apply onConfReload_frame in Hrun as (Hh & Ha & Hn & _). simpl in *.
    rewrite Hh, Ha. split_and!; try done. by apply prefix_app_r.
  - unfold onPathClose in Hrun.
    destruct (heap st !! path.Conf pa) as [c|]; [|done]. simpl in Hrun.
    destruct (paths st !! Source c) as [pmpa|]; [|by simplify_eq].
    destruct (negb _); by simplify_eq.
  - apply onPlay_inv in Hrun
      as [(h & sent & err & Hpre & -> & _)
         |(h & sent & pathName & p2 & c2 & Hpre & _ & _
           & [(pa & _ & -> & _)|(_ & -> & _)])]; simpl; split_and!; try done; lia.
  - apply onPlay_inv in Hrun
      as [(h & sent & err & Hpre & -> & _)
         |(h & sent & pathName & p2 & c2 & Hpre & _ & _
           & [(pa & _ & -> & _)|(_ & -> & _)])]; simpl; split_and!; try done; lia.
  - apply onAnnounce_inv in Hrun
      as [(h & err & Hpre & -> & _)
         |(h & pathName & p & c & Hpre & _ & [(pa & _ & -> & _)|(_ & -> & _)])];
      simpl; split_and!; try done; lia.
Qed.

(** X17: over any run of events the [PathConf] objects of the heap are
    never written: the heap at the start is a prefix of the heap at the
    end, objects are only added after it.  The methods of authentication
    never change, the count of Paths made never decreases, and when no
    event of the run is a reload the registry at the end is the registry
    at the start. *)
Theorem run_frame `{ConfPkg} (evs : list Event) (st st' : State) (out : list Effect) :
  run evs st = Some (st', out) →
  heap st `prefix_of` heap st'
  ∧ authMethods st' = authMethods st
  ∧ (pathsMade st ≤ pathsMade st')%nat
  ∧ (Forall (λ ev, is_reload ev = false) evs → pathConfs st' = pathConfs st).
Proof.
  revert st st' out. induction evs as [|ev evs IH]; intros st st' out Hrun.
  { simpl in Hrun. by simplify_eq. }
  simpl in Hrun.
  destruct (run_step ev st) as [[st1 out1]|] eqn:Hstep; [|done]. simpl in Hrun.
  destruct (run evs st1) as [[st2 out2]|] eqn:Hrest; [|done]. simpl in Hrun.
  injection Hrun as <- <-.
  apply run_step_frame in Hstep as (Hh1 & Ha1 & Hn1 & Hc1).
  apply IH in Hrest as (Hh2 & Ha2 & Hn2 & Hc2).
  split_and!.
  - by etrans.
  - congruence.
  - lia.
  - intros [Hev Hevs]%Forall_cons. rewrite Hc2, Hc1; done.
Qed.

Lemma run_frame_witness :
  [Sample.with_callback Sample.publisher "http://auth/"]
    `prefix_of` [Sample.with_callback Sample.publisher "http://auth/";
                 set_Source (Sample.with_callback Sample.publisher "http://auth/")
                   "rtsp://u/x"].
Proof.
  destruct (@run_frame Sample.lib Sample.pkg
              [Describe (Sample.answering 302 "rtsp://u/x")
                 (Sample.request "cam1" None 7)]
              (Sample.manager (Sample.with_callback Sample.publisher "http://auth/"))
              {| heap := [Sample.with_callback Sample.publisher "http://auth/";
                          set_Source
                            (Sample.with_callback Sample.publisher "http://auth/")
                            "rtsp://u/x"];
                 authMethods := [AuthBasic; AuthDigest];
                 pathConfs := {[ "cam1" := 0%nat ]};
                 paths := {[ "rtsp://u/x" :=
                               {| path.id := 0; path.ConfName := "cam1";
                                  path.Conf := 1%nat; path.Name := "cam1" |} ]};
                 pathsMade := 1 |}
              [HTTPDo (authPost "http://auth/"
                         (playPayload (Sample.request "cam1" None 7)));
               PathNew {| path.id := 0; path.ConfName := "cam1";
                          path.Conf := 1%nat; path.Name := "cam1" |};
               OnPathManDescribe
                 (Some {| path.id := 0; path.ConfName := "cam1";
                          path.Conf := 1%nat; path.Name := "cam1" |})
                 (Sample.request "cam1" None 7)]) as (Hprefix & _).
  - vm_compute. reflexivity.
  - exact Hprefix.
Defined.

Lemma paths_wf_sub `{GoLib} (st st' : State) :
  paths_wf st →
  (∀ src pa, paths st' !! src = Some pa → paths st !! src = Some pa) →
  (pathsMade st ≤ pathsMade st')%nat →
  paths_wf st'.
Proof.
  intros [Hfresh Hdistinct] Hsub Hmade. split.
  - intros src pa Hsrc%Hsub. specialize (Hfresh src pa Hsrc). lia.
  - intros src1 src2 pa1 pa2 H1%Hsub H2%Hsub. by apply Hdistinct.
Qed.

Lemma paths_wf_insert `{GoLib} (st : State) h k confName conf name :
  paths_wf st → paths st !! k = None →
  paths_wf {| heap := h; authMethods := authMethods st; pathConfs := pathConfs st;
              paths := <[k := {| path.id := pathsMade st; path.ConfName := confName;
                                 path.Conf := conf; path.Name := name |}]> (paths st);
              pathsMade := S (pathsMade st) |}.
Proof.
  intros [Hfresh Hdistinct] Hk. split; simpl.
  - intros src pa [[_ <-]|[_ Hsrc]]%lookup_insert_Some; simpl; [lia|].
    specialize (Hfresh src pa Hsrc). lia.
  - intros src1 src2 pa1 pa2 [[<- <-]|[Hne1 H1]]%lookup_insert_Some
      [[<- <-]|[Hne2 H2]]%lookup_insert_Some; simpl; intros Hid; try done.
    + specialize (Hfresh src2 pa2 H2). lia.
    + specialize (Hfresh src1 pa1 H1). lia.
    + by eapply Hdistinct.
Qed.

Lemma run_step_paths_wf `{ConfPkg} (ev : Event) (st st' : State) out :
  paths_wf st → run_step ev st = Some (st', out) → paths_wf st'.
Proof.
  intros Hwf.
  destruct ev as [loaded newConfs|pa|net req|net req|req]; simpl; intros Hrun.
  - apply onConfReload_frame in Hrun as (_ & _ & Hn & Hsub).
    by apply (paths_wf_sub st).
  - unfold onPathClose in Hrun.
    destruct (heap st !! path.Conf pa) as [c|]; [|done]. simpl in Hrun.
    destruct (paths st !! Source c) as [pmpa|]; [|by simplify_eq].
    destruct (negb _); [by simplify_eq|]. injection Hrun as <- <-.
    apply (paths_wf_sub st); [done| |done].
    simpl. by intros src pa' [_ ?]%lookup_delete_Some.
  - apply onPlay_inv in Hrun
      as [(h & sent & err & _ & -> & _)
         |(h & sent & pathName & p2 & c2 & _ & _ & _
           & [(pa & _ & -> & _)|(Hnone & -> & _)])];
      [by apply (paths_wf_sub st)..|by apply paths_wf_insert].
  - apply onPlay_inv in Hrun
      as [(h & sent & err & _ & -> & _)
         |(h & sent & pathName & p2 & c2 & _ & _ & _
           & [(pa & _ & -> & _)|(Hnone & -> & _)])];
      [by apply (paths_wf_sub st)..|by apply paths_wf_insert].
  - apply onAnnounce_inv in Hrun
      as [(h & err & _ & -> & _)
         |(h & pathName & p & c & _ & _ & [(pa & _ & -> & _)|(_ & -> & _)])];
      apply (paths_wf_sub st); simpl; try done; lia.
Qed.

(** X18: in every state the manager reaches from [New], the live Paths
    are distinct objects: each has an identifier below the count of Paths
    made, and no two keys hold Paths with one identifier.  So the
    comparison of the close case, between the Path stored and the Path of
    the request, tells the stored Paths apart. *)
Theorem reachable_paths_distinct `{ConfPkg} (am : list AuthMethod)
    (h : list PathConf) (confs : gmap string ptr) (evs : list Event)
    (st0 st : State) (out0 out : list Effect) :
  New am h confs = Some (st0, out0) →
  run evs st0 = Some (st, out) →
  paths_wf st.
Proof.
  intros Hnew Hrun.
  assert (paths_wf st0) as Hwf0.
  { unfold New, createPaths in Hnew.
    apply createPaths_loop_inv in Hnew as (Hp & _). simpl in Hp.
    split; intros ? ?; rewrite Hp; intros; simplify_map_eq. }
  clear Hnew. revert st0 st out Hwf0 Hrun.
  induction evs as [|ev evs IH]; intros st0 st out Hwf0 Hrun.
  { simpl in Hrun. by simplify_eq. }
  simpl in Hrun.
  destruct (run_step ev st0) as [[st1 out1]|] eqn:Hstep; [|done]. simpl in Hrun.
  destruct (run evs st1) as [[st2 out2]|] eqn:Hrest; [|done]. simpl in Hrun.
  injection Hrun as <- <-.
  eapply IH; [|done]. by eapply run_step_paths_wf.
Qed.

Lemma reachable_paths_distinct_witness :
  @paths_wf Sample.lib
    {| heap := [Sample.publisher]; authMethods := [AuthBasic; AuthDigest];
       pathConfs := {[ "cam1" := 0%nat ]};
       paths := {[ "publisher" :=
                     {| path.id := 1; path.ConfName := "cam1";
                        path.Conf := 0%nat; path.Name := "cam1" |} ]};
       pathsMade := 2 |}.
Proof.
  apply (@reachable_paths_distinct Sample.lib Sample.pkg [AuthBasic; AuthDigest]
           [Sample.publisher] {[ "cam1" := 0%nat ]}
           [Describe (Sample.answering 200 "") (Sample.request "cam1" None 7)]
           {| heap := [Sample.publisher]; authMethods := [AuthBasic; AuthDigest];
              pathConfs := {[ "cam1" := 0%nat ]}; paths := ∅; pathsMade := 1 |}
           _
           [PathNew {| path.id := 0; path.ConfName := "cam1";
                       path.Conf := 0%nat; path.Name := "cam1" |}]
           [PathNew {| path.id := 1; path.ConfName := "cam1";
                       path.Conf := 0%nat; path.Name := "cam1" |};
            OnPathManDescribe
              (Some {| path.id := 1; path.ConfName := "cam1";
                       path.Conf := 0%nat; path.Name := "cam1" |})
              (Sample.request "cam1" None 7)]).
  - vm_compute. reflexivity.
  - vm_compute. reflexivity.
Defined.

(** ** Locating a live Path *)

(** X19: a Describe or a SetupPlay that passes the callback and the
    authorisation while a Path is live under the source of the
    configuration in use (the target of the redirect, if there is one)
    calls that Path and makes none: the live Paths, the registry and the
    count of Paths made are what they were.  Two requests that come to the
    same source share one Path. *)
Theorem play_reuses_live_path `{ConfPkg}
    (handler : Network → readpublisher.Req → State → option (State * list Effect))
    (net : Network) (req : readpublisher.Req) (st st1 : State)
    (pathName : string) (pathConf : ptr) (c : PathConf)
    (action : PlayRequestAction) (sent : list HTTPRequest) (pa : path.Path) :
  handler = onDescribe ∨ handler = onSetupPlay →
  findPathConf st (readpublisher.PathName req) = Some (st1, Ok (pathName, pathConf)) →
  heap st1 !! pathConf = Some c →
  DoAuthRequest net c (playPayload req) = (Ok action, sent) →
  Close action = false →
  authenticate (authMethods st) (readpublisher.IP req)
    (readpublisher.ValidateCredentials req) (readpublisher.PathName req)
    (ReadIPsParsed c) (ReadUser c) (ReadPass c) = None →
  paths st !! Source (redirect_conf c (Target action)) = Some pa →
  ∃ st' out, handler net req st = Some (st', out)
    ∧ forwards out = [Some pa] ∧ made out = [] ∧ replies out = []
    ∧ paths st' = paths st ∧ pathConfs st' = pathConfs st
    ∧ pathsMade st' = pathsMade st.
Proof.
  intros Hhandler Hfind Hc Hdo Hclose Hauth Hpa.
  destruct Hhandler as [->| ->]; unfold onDescribe, onSetupPlay.
  all: rewrite (onPlay_allowed _ _ _ _ _ _ _ _ _ _ Hfind Hc Hdo Hclose).
  all: cbn zeta; rewrite Hauth, Hpa.
  all: eexists _, _; (split; [reflexivity|]).
  - destruct (effects_HTTPDo_app sent [OnPathManDescribe (Some pa) req])
      as (-> & -> & _ & ->). done.
  - destruct (effects_HTTPDo_app sent [OnPathManSetupPlay (Some pa) req])
      as (-> & -> & _ & ->). done.
Qed.

Lemma play_reuses_live_path_witness :
  ∃ st' out,
    @onSetupPlay Sample.lib Sample.pkg (Sample.answering 200 "")
      (Sample.request "cam1" None 8)
      {| heap := [Sample.publisher]; authMethods := [AuthBasic; AuthDigest];
         pathConfs := {[ "cam1" := 0%nat ]};
         paths := {[ "publisher" :=
                       {| path.id := 0; path.ConfName := "cam1";
                          path.Conf := 0%nat; path.Name := "cam1" |} ]};
         pathsMade := 1 |}
    = Some (st', out)
    ∧ forwards out = [Some {| path.id := 0; path.ConfName := "cam1";
                              path.Conf := 0%nat; path.Name := "cam1" |}]
    ∧ made out = [].
Proof.
  destruct (@play_reuses_live_path Sample.lib Sample.pkg
              (@onSetupPlay Sample.lib Sample.pkg) (Sample.answering 200 "")
              (Sample.request "cam1" None 8)
              {| heap := [Sample.publisher]; authMethods := [AuthBasic; AuthDigest];
                 pathConfs := {[ "cam1" := 0%nat ]};
                 paths := {[ "publisher" :=
                               {| path.id := 0; path.ConfName := "cam1";
                                  path.Conf := 0%nat; path.Name := "cam1" |} ]};
                 pathsMade := 1 |}
              {| heap := [Sample.publisher]; authMethods := [AuthBasic; AuthDigest];
                 pathConfs := {[ "cam1" := 0%nat ]};
                 paths := {[ "publisher" :=
                               {| path.id := 0; path.ConfName := "cam1";
                                  path.Conf := 0%nat; path.Name := "cam1" |} ]};
                 pathsMade := 1 |}
              "cam1" 0%nat Sample.publisher {| Close := false; Target := "" |} []
              {| path.id := 0; path.ConfName := "cam1"; path.Conf := 0%nat;
                 path.Name := "cam1" |})
    as (st' & out & Hrun & Hforwards & Hmade & _).
  - by right.
  - vm_compute. reflexivity.
  - reflexivity.
  - reflexivity.
  - reflexivity.
  - reflexivity.
  - vm_compute. reflexivity.
  - exists st', out. split; [exact Hrun|]. split; [exact Hforwards|exact Hmade].
Defined.

(** X20: an Announce that passes the authorisation while a Path is live
    under the source of the configuration calls that Path, makes none and
    answers nothing; the live Paths and the count of Paths made are what
    they were. *)
Theorem announce_calls_live_path `{ConfPkg} (req : readpublisher.Req)
    (st st1 : State) (pathName : string) (pathConf : ptr) (c : PathConf)
    (pa : path.Path) :
  findPathConf st (readpublisher.PathName req) = Some (st1, Ok (pathName, pathConf)) →
  heap st1 !! pathConf = Some c →
  authenticate (authMethods st) (readpublisher.IP req)
    (readpublisher.ValidateCredentials req) (readpublisher.PathName req)
    (PublishIPsParsed c) (PublishUser c) (PublishPass c) = None →
  paths st !! Source c = Some pa →
  ∃ st', onAnnounce req st = Some (st', [OnPathManAnnounce (Some pa) req])
    ∧ paths st' = paths st ∧ pathConfs st' = pathConfs st
    ∧ pathsMade st' = pathsMade st.
Proof.
  intros Hfind Hc Hauth Hpa.
  destruct (findPathConf_inv _ _ _ _ Hfind) as (Hst1 & _ & _).
  unfold onAnnounce. rewrite Hfind. simpl. rewrite Hc. simpl.
  rewrite Hst1. simpl. rewrite Hauth, Hpa. simpl. rewrite Hpa.
  by eexists.
Qed.

Lemma announce_calls_live_path_witness :
  ∃ st',
    @onAnnounce Sample.lib Sample.pkg (Sample.request "cam1" None 9)
      {| heap := [Sample.publisher]; authMethods := [AuthBasic; AuthDigest];
         pathConfs := {[ "cam1" := 0%nat ]};
         paths := {[ "publisher" :=
                       {| path.id := 0; path.ConfName := "cam1";
                          path.Conf := 0%nat; path.Name := "cam1" |} ]};
         pathsMade := 1 |}
    = Some (st', [OnPathManAnnounce
                    (Some {| path.id := 0; path.ConfName := "cam1";
                             path.Conf := 0%nat; path.Name := "cam1" |})
                    (Sample.request "cam1" None 9)])
    ∧ pathsMade st' = 1%nat.
Proof.
  destruct (@announce_calls_live_path Sample.lib Sample.pkg
              (Sample.request "cam1" None 9)
              {| heap := [Sample.publisher]; authMethods := [AuthBasic; AuthDigest];
                 pathConfs := {[ "cam1" := 0%nat ]};
                 paths := {[ "publisher" :=
                               {| path.id := 0; path.ConfName := "cam1";
                                  path.Conf := 0%nat; path.Name := "cam1" |} ]};
                 pathsMade := 1 |}
              {| heap := [Sample.publisher]; authMethods := [AuthBasic; AuthDigest];
                 pathConfs := {[ "cam1" := 0%nat ]};
                 paths := {[ "publisher" :=
                               {| path.id := 0; path.ConfName := "cam1";
                                  path.Conf := 0%nat; path.Name := "cam1" |} ]};
                 pathsMade := 1 |}
              "cam1" 0%nat Sample.publisher
              {| path.id := 0; path.ConfName := "cam1"; path.Conf := 0%nat;
                 path.Name := "cam1" |})
    as (st' & Hrun & _ & _ & Hmade).
  - vm_compute. reflexivity.
  - reflexivity.
  - reflexivity.
  - vm_compute. reflexivity.
  - exists st'. split; [exact Hrun|exact Hmade].
Defined.

(** Witnesses of X1 and X2 at 10.0.0.0/8. *)
Lemma ipEqualOrInRange_exactly_listed_witness :
  ipEqualOrInRange (Some [10; 1; 2; 3] : @net_IP Sample.lib)
    [Sample.net10; ItemOther]
  = ipEqualOrInRange (Some [10; 1; 2; 3] : @net_IP Sample.lib)
      [ItemOther; Sample.net10].
Proof.
  destruct (ipEqualOrInRange_exactly_listed
              (Some [10; 1; 2; 3] : @net_IP Sample.lib) [ItemOther; Sample.net10])
    as (_ & _ & _ & Hperm).
  apply Hperm. apply perm_swap.
Defined.

Lemma authenticate_passes_iff_witness :
  authenticate [AuthBasic] (Some [10; 1; 2; 3] : @net_IP Sample.lib) None "cam1"
    (Some [Sample.net10]) "" "" = None.
Proof.
  destruct (authenticate_passes_iff [AuthBasic]
              (Some [10; 1; 2; 3] : @net_IP Sample.lib) None "cam1"
              (Some [Sample.net10]) "" "") as [[_ Hpass] _].
  apply Hpass. split; [|reflexivity].
  right. apply ipEqualOrInRange_listed. vm_compute. reflexivity.
Defined.
